(** * Socialmedia.py: the edit / write / critique workflow

    A shallow embedding of the orchestration code of [Socialmedia.py]: the
    five node functions ([editor_node], [tweet_writer_node],
    [linkedin_writer_node], [critique_tweet_node], [critique_linkedin_node]),
    the routing function [should_rewrite] and the graph that [build_graph]
    registers, executed superstep by superstep.

    Modelling choices.
    - A [Post] is a mutable Python object.  The state dictionary holds
      references to the two posts, and the nodes mutate the objects in place
      ([post.drafts.append], [post.feedback = ...]); so the model has a store
      ([Heap]) from object identities to [Post] values and the state holds
      identities.
    - [llm.invoke] is an external, fallible service.  It is a parameter
      [llm]: the answer to the [i]-th call of the run with the given
      messages, [None] when the call raises.
    - Python exceptions are the [Raised] outcome, which carries the world at
      the moment the exception left the graph.
    - A ghost [trace] records what happened (node entries and exits, service
      calls, state commits); the program never reads it.
    - Text is [string]: a character is a code point below 256.
    - The graph library is not part of the repository.  Its builder calls
      ([add_node], [add_edge], ...) only record what they are given; its
      engine is modelled from the specification, see "Executing a compiled
      graph" below. *)

From Stdlib Require Import List String Ascii ZArith Lia Bool Arith PeanoNat.
From Stdlib Require DecimalString DecimalNat.
Import ListNotations.
Local Open Scope string_scope.
Local Open Scope list_scope.

(** ** Python string operations *)

Module PyStr.

(** [str.isspace] on one character, for the code points below 256. *)
Definition isspace (c : ascii) : bool :=
  let n := nat_of_ascii c in
  (((9 <=? n) && (n <=? 13)) || ((28 <=? n) && (n <=? 32))
   || (n =? 133) || (n =? 160))%nat.

Fixpoint lstrip (s : string) : string :=
  match s with
  | EmptyString => EmptyString
  | String c s' => if isspace c then lstrip s' else s
  end.

Fixpoint rstrip (s : string) : string :=
  match s with
  | EmptyString => EmptyString
  | String c s' =>
      match rstrip s' with
      | EmptyString => if isspace c then EmptyString else String c EmptyString
      | r => String c r
      end
  end.

(** [s.strip()] *)
Definition strip (s : string) : string := rstrip (lstrip s).

(** Truth value of a string: [bool(s)]. *)
Definition truthy (s : string) : bool :=
  match s with EmptyString => false | _ => true end.

(** [needle in hay] *)
Fixpoint contains (needle hay : string) : bool :=
  prefix needle hay ||
  match hay with
  | EmptyString => false
  | String _ hay' => contains needle hay'
  end.

End PyStr.

(** ** Prompt constants *)

Definition EDITOR_PROMPT : string := "
Rewrite for maximum social media engagement:

- Use attention-grabbing, concise language
- Inject personality and humor
- Optimize formatting (short paragraphs)
- Encourage interaction (questions, calls-to-action)
- Ensure perfect grammar and spelling
- Rewrite from first person perspective, when talking to an audience

Use only the information provided in the text. Think carefully.
".

Definition TWITTER_PROMPT : string := "
Generate a high-engagement tweet from the given text (atleast 300 words):
1. What problem does this solve?
2. Focus on the main technical points/features
3. Write a short, coherent paragraph (2-3 sentences max)
4. Use natural, conversational language
5. Optimize for virality: make it intriguing, relatable, or controversial
6. Exclude emojis and hashtags
".

Definition TWITTER_CRITIQUE_PROMPT : string := "
You are a Tweet Critique Agent. Your task is to analyze tweets and provide actionable feedback to make them more engaging. Focus on:

1. Clarity: Is the message clear and easy to understand?
2. Hook: Does it grab attention in the first few words?
3. Brevity: Is it concise while maintaining impact?
4. Call-to-action: Does it encourage interaction or sharing?
5. Tone: Is it appropriate for the intended audience?
6. Storytelling: Does it evoke curiosity?
7. Remove hype: Does it promise more than it delivers?

Provide 2-3 specific suggestions to improve the tweet's engagement potential.
Do not suggest hashtags. Keep your feedback concise and actionable.
".

Definition LINKEDIN_PROMPT : string := "
Write a compelling LinkedIn post from the given text (atleast 300 words). Structure it as follows:

1. Eye-catching headline (5-7 words)
2. Identify a key problem or challenge
3. Provide a bullet list of key benefits/features
4. Highlight a clear benefit or solution
5. Conclude with a thought-provoking question

Maintain a professional, informative tone. Avoid emojis and hashtags.
Keep the post concise (50-80 words) and relevant to the industry.
".

Definition LINKEDIN_CRITIQUE_PROMPT : string := "
Your role is to analyze LinkedIn posts and provide actionable feedback to make them more engaging.
Focus on the following aspects:

1. Hook: Evaluate the opening line's ability to grab attention.
2. Structure: Assess the post's flow and readability.
3. Content value: Determine if the post provides useful information or insights.
4. Call-to-action: Check if there's a clear next step for readers.
5. Language: Suggest improvements in tone, style, and word choice.
6. Visual elements: Recommend additions or changes to images, videos, or formatting.

For each aspect, provide:
- A brief assessment (1-2 sentences)
- A specific suggestion for improvement
- A concise example of the suggested change
".

(** ** Data model *)

(** [class Post(BaseModel)]: [drafts: List[str]], [feedback: Optional[str]]. *)
Record Post := mkPost { drafts : list string; feedback : option string }.

(** Identity of a [Post] object. *)
Definition loc := nat.

(** The store of [Post] objects. *)
Definition Heap := loc -> Post.

Definition upd (h : Heap) (l : loc) (p : Post) : Heap :=
  fun l' => if Nat.eqb l' l then p else h l'.

(** [class AppState(TypedDict)].  The caller's input dictionary has no
    [edit_text] key, so that field may be absent. *)
Record AppState := mkState {
  user_text : string;
  target_audience : string;
  edit_text : option string;
  tweet : loc;
  linkedin_post : loc;
  n_drafts : Z
}.

(** What a node returns: a dictionary with some of the keys of [AppState]. *)
Record Update := mkUpdate {
  u_user_text : option string;
  u_target_audience : option string;
  u_edit_text : option string;
  u_tweet : option loc;
  u_linkedin_post : option loc;
  u_n_drafts : option Z
}.

Definition no_update : Update := mkUpdate None None None None None None.

(** The whole state returned as an update ([lambda x: x]). *)
Definition whole (st : AppState) : Update :=
  mkUpdate (Some (user_text st)) (Some (target_audience st)) (edit_text st)
           (Some (tweet st)) (Some (linkedin_post st)) (Some (n_drafts st)).

Definition pick {A} (o : option A) (d : A) : A :=
  match o with Some a => a | None => d end.

(** Writing an update into the state's channels (last value wins). *)
Definition apply_update (u : Update) (st : AppState) : AppState :=
  mkState (pick (u_user_text u) (user_text st))
          (pick (u_target_audience u) (target_audience st))
          (match u_edit_text u with Some e => Some e | None => edit_text st end)
          (pick (u_tweet u) (tweet st))
          (pick (u_linkedin_post u) (linkedin_post st))
          (pick (u_n_drafts u) (n_drafts st)).

Inductive Message :=
| SystemMessage (content : string)
| HumanMessage (content : string).

(** The names given to [graph.add_node]. *)
Inductive Node :=
| editor | tweet_writer | tweet_critique
| linkedin_writer | linkedin_critique | supervisor.

Definition Node_eqb (a b : Node) : bool :=
  match a, b with
  | editor, editor | tweet_writer, tweet_writer
  | tweet_critique, tweet_critique | linkedin_writer, linkedin_writer
  | linkedin_critique, linkedin_critique | supervisor, supervisor => true
  | _, _ => false
  end.

(** What a conditional edge returns: [END] or a list of node names. *)
Inductive Route := END | Goto (targets : list Node).

Inductive Exception :=
| GenerationFailure      (* llm.invoke raised *)
| IndexError             (* drafts[-1] on an empty list *)
| KeyError               (* state["edit_text"] before the editor wrote it *)
| GraphRecursionError.   (* the superstep budget ran out *)

(** Ghost events. *)
Inductive Event :=
| Enter (n : Node)
| Call (msgs : list Message) (response : option string)
| Leave (n : Node)
| Commit (st : AppState).

Record World := mkWorld {
  heap : Heap;
  ncalls : nat;
  trace : list Event
}.

(** ** The monad of node code: state and exceptions *)

Inductive Result (A : Type) :=
| Ok (a : A) (w : World)
| Raised (e : Exception) (w : World).
Arguments Ok {A} a w.
Arguments Raised {A} e w.

Definition M (A : Type) := World -> Result A.

Definition ret {A} (a : A) : M A := fun w => Ok a w.

Definition bind {A B} (m : M A) (k : A -> M B) : M B :=
  fun w => match m w with
           | Ok a w' => k a w'
           | Raised e w' => Raised e w'
           end.

Definition raise {A} (e : Exception) : M A := fun w => Raised e w.

Notation "x <- m ;; k" := (bind m (fun x => k))
  (at level 61, m at next level, right associativity).
Notation "m ;;; k" := (bind m (fun _ => k))
  (at level 61, right associativity).

Definition world_of {A} (r : Result A) : World :=
  match r with Ok _ w => w | Raised _ w => w end.

Definition log (ev : Event) : M unit :=
  fun w => Ok tt (mkWorld (heap w) (ncalls w) (trace w ++ [ev])).

(** [state["tweet"]]: the object behind a reference. *)
Definition deref (l : loc) : M Post := fun w => Ok (heap w l) w.

(** In-place mutation of the object at [l]. *)
Definition store (l : loc) (p : Post) : M unit :=
  fun w => Ok tt (mkWorld (upd (heap w) l p) (ncalls w) (trace w)).

(** [xs[-1]] *)
Definition last_item (xs : list string) : M string :=
  match rev xs with
  | [] => raise IndexError
  | x :: _ => ret x
  end.

(** [state["edit_text"]] *)
Definition get_edit_text (st : AppState) : M string :=
  match edit_text st with
  | Some e => ret e
  | None => raise KeyError
  end.

(** Operations on a [Post] object through its reference. *)

(** [post.feedback] *)
Definition get_feedback (post : loc) : M (option string) :=
  p <- deref post ;; ret (feedback p).

(** [post.drafts[-1]] *)
Definition drafts_last (post : loc) : M string :=
  p <- deref post ;; last_item (drafts p).

(** [post.drafts.append(x)] *)
Definition drafts_append (post : loc) (x : string) : M unit :=
  p <- deref post ;; store post (mkPost (drafts p ++ [x]) (feedback p)).

(** [post.feedback = x] *)
Definition set_feedback (post : loc) (x : string) : M unit :=
  p <- deref post ;; store post (mkPost (drafts p) (Some x)).

(** [not post.feedback]: true for [None] and for the empty string. *)
Definition falsy (fb : option string) : bool :=
  match fb with
  | None => true
  | Some s => negb (PyStr.truthy s)
  end.

(** [f"{post.feedback}"] *)
Definition format_opt (fb : option string) : string :=
  match fb with Some s => s | None => "None" end.

(** ** Graph nodes *)

Section Workflow.

(** The text generation service: [llm i msgs] is what the [i]-th call of the
    run answers to [msgs]; [None] when it raises. *)
Variable llm : nat -> list Message -> option string.

(** [llm.invoke(msgs).content] *)
Definition llm_invoke (msgs : list Message) : M string :=
  fun w =>
    let r := llm (ncalls w) msgs in
    let w' := mkWorld (heap w) (S (ncalls w)) (trace w ++ [Call msgs r]) in
    match r with
    | Some content => Ok content w'
    | None => Raised GenerationFailure w'
    end.

Definition editor_node (state : AppState) : M Update :=
  let prompt := PyStr.strip ("
text:
```
" ++ user_text state ++ "
```
")%string in
  content <- llm_invoke [SystemMessage EDITOR_PROMPT; HumanMessage prompt] ;;
  ret (mkUpdate None None (Some content) None None None).

Definition tweet_writer_node (state : AppState) : M Update :=
  let post := tweet state in
  fb <- get_feedback post ;;
  feedback_prompt <-
    (if falsy fb then ret ""%string
     else
       d <- drafts_last post ;;
       ret (PyStr.strip ("
Tweet:
```
" ++ d ++ "
```

Use the feedback to improve it:
```
" ++ format_opt fb ++ "
```
")%string)) ;;
  e <- get_edit_text state ;;
  let prompt := PyStr.strip ("
text:
```
" ++ e ++ "
```

" ++ feedback_prompt ++ "

Target audience: " ++ target_audience state ++ "

Write only the text for the post
")%string in
  content <- llm_invoke [SystemMessage TWITTER_PROMPT; HumanMessage prompt] ;;
  drafts_append post content ;;;
  ret (mkUpdate None None None (Some post) None None).

Definition linkedin_writer_node (state : AppState) : M Update :=
  let post := linkedin_post state in
  fb <- get_feedback post ;;
  feedback_prompt <-
    (if falsy fb then ret ""%string
     else
       d <- drafts_last post ;;
       ret (PyStr.strip ("
LinkedIn post:
```
" ++ d ++ "
```

Use the feedback to improve it:
```
" ++ format_opt fb ++ "
```
")%string)) ;;
  e <- get_edit_text state ;;
  let prompt := PyStr.strip ("
text:
```
" ++ e ++ "
```

" ++ feedback_prompt ++ "

Target audience: " ++ target_audience state ++ "

Write only the text for the post
")%string in
  content <- llm_invoke [SystemMessage LINKEDIN_PROMPT; HumanMessage prompt] ;;
  drafts_append post content ;;;
  ret (mkUpdate None None None None (Some post) None).

Definition critique_tweet_node (state : AppState) : M Update :=
  let post := tweet state in
  e <- get_edit_text state ;;
  d <- drafts_last post ;;
  let prompt := PyStr.strip ("
Full post:
```
" ++ e ++ "
```

Suggested tweet (critique this):
```
" ++ d ++ "
```

Target audience: " ++ target_audience state ++ "
")%string in
  content <-
    llm_invoke [SystemMessage TWITTER_CRITIQUE_PROMPT; HumanMessage prompt] ;;
  set_feedback post content ;;;
  ret (mkUpdate None None None (Some post) None None).

Definition critique_linkedin_node (state : AppState) : M Update :=
  let post := linkedin_post state in
  e <- get_edit_text state ;;
  d <- drafts_last post ;;
  let prompt := PyStr.strip ("
Full post:
```
" ++ e ++ "
```

Suggested LinkedIn post (critique this):
```
" ++ d ++ "
```

Target audience: " ++ target_audience state ++ "
")%string in
  content <-
    llm_invoke [SystemMessage LINKEDIN_CRITIQUE_PROMPT; HumanMessage prompt] ;;
  set_feedback post content ;;;
  ret (mkUpdate None None None None (Some post) None).

(** [len(xs)] *)
Definition len (xs : list string) : Z := Z.of_nat (List.length xs).

(** The routing function of [build_graph]. *)
Definition should_rewrite (state : AppState) : M Route :=
  tweet <- deref (tweet state) ;;
  linkedin_post <- deref (linkedin_post state) ;;
  let n_drafts := n_drafts state in
  if ((len (drafts tweet) >=? n_drafts)
      && (len (drafts linkedin_post) >=? n_drafts))%Z
  then ret END
  else ret (Goto [linkedin_critique; tweet_critique]).

(** ** The graph *)

Record StateGraph := mkGraph {
  nodes : list (Node * (AppState -> M Update));
  edges : list (Node * Node);
  branches : list (Node * (AppState -> M Route));
  entry_point : option Node
}.

Definition new_graph : StateGraph := mkGraph [] [] [] None.

Definition add_node (name : Node) (f : AppState -> M Update) (g : StateGraph) :=
  mkGraph (nodes g ++ [(name, f)]) (edges g) (branches g) (entry_point g).

Definition add_edge (src dst : Node) (g : StateGraph) :=
  mkGraph (nodes g) (edges g ++ [(src, dst)]) (branches g) (entry_point g).

Definition add_conditional_edges (src : Node) (path : AppState -> M Route)
    (g : StateGraph) :=
  mkGraph (nodes g) (edges g) (branches g ++ [(src, path)]) (entry_point g).

Definition set_entry_point (name : Node) (g : StateGraph) :=
  mkGraph (nodes g) (edges g) (branches g) (Some name).

Definition build_graph : StateGraph :=
  let graph := new_graph in
  let graph := add_node editor (fun x => editor_node x) graph in
  let graph := add_node tweet_writer (fun x => tweet_writer_node x) graph in
  let graph := add_node tweet_critique (fun x => critique_tweet_node x) graph in
  let graph := add_node linkedin_writer (fun x => linkedin_writer_node x) graph in
  let graph :=
    add_node linkedin_critique (fun x => critique_linkedin_node x) graph in
  let graph := add_node supervisor (fun x => ret (whole x)) graph in
  let graph := add_edge editor tweet_writer graph in
  let graph := add_edge editor linkedin_writer graph in
  let graph := add_edge tweet_writer supervisor graph in
  let graph := add_edge linkedin_writer supervisor graph in
  let graph := add_conditional_edges supervisor should_rewrite graph in
  let graph := add_edge tweet_critique tweet_writer graph in
  let graph := add_edge linkedin_critique linkedin_writer graph in
  let graph := set_entry_point editor graph in
  graph.

(** ** Executing a compiled graph

    The engine that executes a compiled graph belongs to the graph library;
    its code is not among the sources of the repository.  It is modelled
    from the specification (sections 2, 4.5 and 5): stages run in the order
    the edges give, the two stages of a fan-out both complete before the
    stage they lead to runs, and running them one after the other is a valid
    schedule.  The model works in supersteps.  The active nodes of a
    superstep all read the state as it was when the superstep began (the
    [Post] objects are shared, so their mutations are seen at once), one
    after the other in the order of registration; their updates are written
    at the end of the superstep; the nodes their edges lead to are active in
    the next one.  The run ends when no node is active, and raises
    [GraphRecursionError] when the budget of supersteps is spent first. *)

(** Modelled from the spec: the engine's lookup of the function registered
    under a node name. *)
Definition node_fn (g : StateGraph) (n : Node) : AppState -> M Update :=
  match find (fun p => Node_eqb (fst p) n) (nodes g) with
  | Some (_, f) => f
  | None => fun _ => ret no_update
  end.

Definition targets_of (r : Route) : list Node :=
  match r with END => [] | Goto l => l end.

(** Modelled from the spec: the engine's dispatch on the conditional edges
    that leave [n], evaluated on the state [st]. *)
Fixpoint route (bs : list (Node * (AppState -> M Route))) (n : Node)
    (st : AppState) : M (list Node) :=
  match bs with
  | [] => ret []
  | (src, path) :: bs' =>
      if Node_eqb src n
      then r <- path st ;; ts <- route bs' n st ;; ret (targets_of r ++ ts)
      else route bs' n st
  end.

(** Modelled from the spec: the engine running one node of a superstep, its
    function first, then its outgoing edges. *)
Definition run_task (g : StateGraph) (st : AppState) (n : Node)
    : M (Update * list Node) :=
  log (Enter n) ;;;
  u <- node_fn g n st ;;
  ts <- route (branches g) n (apply_update u st) ;;
  log (Leave n) ;;;
  ret (u, map snd (filter (fun e => Node_eqb (fst e) n) (edges g)) ++ ts).

(** Modelled from the spec: the engine running the active nodes of a
    superstep one after the other, all on the same state. *)
Fixpoint run_tasks (g : StateGraph) (st : AppState) (active : list Node)
    : M (list Update * list Node) :=
  match active with
  | [] => ret ([], [])
  | n :: rest =>
      r <- run_task g st n ;;
      rs <- run_tasks g st rest ;;
      ret (fst r :: fst rs, snd r ++ snd rs)
  end.

(** Modelled from the spec: one superstep of the engine; the updates are
    written once every active node has returned (the fan-in). *)
Definition superstep (g : StateGraph) (st : AppState) (active : list Node)
    : M (AppState * list Node) :=
  r <- run_tasks g st active ;;
  let st' := fold_left (fun s u => apply_update u s) (fst r) st in
  log (Commit st') ;;;
  ret (st', filter (fun n => existsb (Node_eqb n) (snd r)) (map fst (nodes g))).

(** Modelled from the spec: the engine's loop over supersteps, within a
    budget. *)
Fixpoint run (g : StateGraph) (fuel : nat) (st : AppState)
    (active : list Node) : M AppState :=
  match active with
  | [] => ret st
  | _ :: _ =>
      match fuel with
      | O => raise GraphRecursionError
      | S fuel' =>
          r <- superstep g st active ;;
          run g fuel' (fst r) (snd r)
      end
  end.

(** Modelled from the spec: the engine's [app.invoke(input)] for
    [app = graph.compile()], starting at the entry point. *)
Definition invoke (g : StateGraph) (recursion_limit : nat) (input : AppState)
    : M AppState :=
  match entry_point g with
  | Some e => run g recursion_limit input [e]
  | None => ret input
  end.

(** ** The caller: the [try] block of [main] *)

(** The two objects [Post(drafts=[], feedback=None)] that [main] creates. *)
Definition tweet_obj : loc := 0.
Definition linkedin_obj : loc := 1.

Definition main_world : World :=
  mkWorld (fun _ => mkPost [] None) 0 [].

Definition main_input (user_text target_audience : string) (n_drafts : Z)
    : AppState :=
  mkState user_text target_audience None tweet_obj linkedin_obj n_drafts.

(** What the user gets: the generated state kept for display, or the error
    message of the [except] branch. *)
Inductive Outcome :=
| Generated (state : AppState) (h : Heap)
| ErrorShown (e : Exception).

Definition main_generate (recursion_limit : nat)
    (user_text target_audience : string) (n_drafts : Z) : Outcome :=
  match invoke build_graph recursion_limit
          (main_input user_text target_audience n_drafts) main_world with
  | Ok state w => Generated state (heap w)
  | Raised e _ => ErrorShown e
  end.

End Workflow.

(** ** Vocabulary of the statements *)

(** The world after a ghost event. *)
Definition addev (w : World) (ev : Event) : World :=
  mkWorld (heap w) (ncalls w) (trace w ++ [ev]).

(** The world after a service call. *)
Definition called (w : World) (msgs : list Message) (r : option string)
    : World :=
  mkWorld (heap w) (S (ncalls w)) (trace w ++ [Call msgs r]).

(** What a node is to the workspace it works on. *)
Inductive Kind :=
| KEditor | KWriter (post : loc) | KCritique (post : loc) | KSupervisor.

Definition kind (n : Node) (st : AppState) : Kind :=
  match n with
  | editor => KEditor
  | tweet_writer => KWriter (tweet st)
  | linkedin_writer => KWriter (linkedin_post st)
  | tweet_critique => KCritique (tweet st)
  | linkedin_critique => KCritique (linkedin_post st)
  | supervisor => KSupervisor
  end.

(** The store after a node of kind [k] got the answer [c]. *)
Definition effect (k : Kind) (c : string) (h : Heap) : Heap :=
  match k with
  | KWriter l => upd h l (mkPost (drafts (h l) ++ [c]) (feedback (h l)))
  | KCritique l => upd h l (mkPost (drafts (h l)) (Some c))
  | KEditor | KSupervisor => h
  end.

(** The state after the update of a node of kind [k] is written. *)
Definition state_after (k : Kind) (c : string) (st : AppState) : AppState :=
  match k with
  | KEditor =>
      mkState (user_text st) (target_audience st) (Some c) (tweet st)
              (linkedin_post st) (n_drafts st)
  | _ => st
  end.

(** The reads of [drafts[-1]] that a node of kind [k] makes are in range. *)
Definition can_index (k : Kind) (h : Heap) : Prop :=
  match k with
  | KWriter l => falsy (feedback (h l)) = true \/ drafts (h l) <> []
  | KCritique l => drafts (h l) <> []
  | KEditor | KSupervisor => True
  end.

(** A node of kind [k] reads [state["edit_text"]]. *)
Definition reads_edit (k : Kind) : Prop :=
  match k with KWriter _ | KCritique _ => True | _ => False end.

(** The condition under which [should_rewrite] returns [END]. *)
Definition converged (st : AppState) (h : Heap) : bool :=
  ((len (drafts (h (tweet st))) >=? n_drafts st)
   && (len (drafts (h (linkedin_post st))) >=? n_drafts st))%Z.

(** The four shapes of a superstep of the graph. *)
Inductive Phase := PEdit | PWrite | PGate | PCritique.

Definition active_of (ph : Phase) : list Node :=
  match ph with
  | PEdit => [editor]
  | PWrite => [tweet_writer; linkedin_writer]
  | PGate => [supervisor]
  | PCritique => [tweet_critique; linkedin_critique]
  end.

(** Counting events of a trace. *)
Definition is_enter (n : Node) (ev : Event) : bool :=
  match ev with Enter m => Node_eqb n m | _ => false end.

Definition is_leave (n : Node) (ev : Event) : bool :=
  match ev with Leave m => Node_eqb n m | _ => false end.

Definition count (f : Event -> bool) (evs : list Event) : nat :=
  List.length (filter f evs).

(** No service call of the trace raised. *)
Definition call_ok (ev : Event) : Prop :=
  match ev with Call _ None => False | _ => True end.

Section Semantics.

Variable llm : nat -> list Message -> option string.

(** A node other than the supervisor returns: one service call, answered. *)
Inductive node_ok (n : Node) (st : AppState) (w : World)
    (msgs : list Message) (c : string) : World -> Prop :=
| node_ok_intro :
    n <> supervisor ->
    llm (ncalls w) msgs = Some c ->
    can_index (kind n st) (heap w) ->
    (reads_edit (kind n st) -> edit_text st <> None) ->
    node_ok n st w msgs c
      (mkWorld (effect (kind n st) c (heap w)) (S (ncalls w))
               (trace w ++ [Call msgs (Some c)])).

(** A node raises. *)
Inductive node_fails (n : Node) (st : AppState) (w : World)
    : Exception -> World -> Prop :=
| nf_llm msgs :
    n <> supervisor ->
    llm (ncalls w) msgs = None ->
    can_index (kind n st) (heap w) ->
    node_fails n st w GenerationFailure (called w msgs None)
| nf_index :
    ~ can_index (kind n st) (heap w) ->
    node_fails n st w IndexError w
| nf_key :
    reads_edit (kind n st) -> edit_text st = None ->
    node_fails n st w KeyError w.

Inductive node_result (n : Node) (st : AppState) (w : World)
    : Result Update -> Prop :=
| nr_skip u :
    n = supervisor -> apply_update u st = st -> node_result n st w (Ok u w)
| nr_ok msgs c u w' :
    node_ok n st w msgs c w' ->
    apply_update u st = state_after (kind n st) c st ->
    node_result n st w (Ok u w')
| nr_raise e w' :
    node_fails n st w e w' -> node_result n st w (Raised e w').

(** The two nodes of a phase that runs a pair, and the phase that follows. *)
Inductive pair_of : Phase -> Node -> Node -> Phase -> Prop :=
| pair_write : pair_of PWrite tweet_writer linkedin_writer PGate
| pair_critique : pair_of PCritique tweet_critique linkedin_critique PWrite.

(** One superstep, by phase. *)
Inductive phase_step
    : Phase -> AppState -> World -> Result (AppState * list Node) -> Prop :=
| ps_edit_ok st w msgs c w1 :
    node_ok editor st (addev w (Enter editor)) msgs c w1 ->
    phase_step PEdit st w
      (Ok (state_after KEditor c st, active_of PWrite)
          (addev (addev w1 (Leave editor))
                 (Commit (state_after KEditor c st))))
| ps_edit_fail st w e w1 :
    node_fails editor st (addev w (Enter editor)) e w1 ->
    phase_step PEdit st w (Raised e w1)
| ps_pair_ok ph n1 n2 ph' st w msgs1 c1 w1 msgs2 c2 w2 :
    pair_of ph n1 n2 ph' ->
    node_ok n1 st (addev w (Enter n1)) msgs1 c1 w1 ->
    node_ok n2 st (addev (addev w1 (Leave n1)) (Enter n2)) msgs2 c2 w2 ->
    phase_step ph st w
      (Ok (st, active_of ph') (addev (addev w2 (Leave n2)) (Commit st)))
| ps_pair_fail1 ph n1 n2 ph' st w e w1 :
    pair_of ph n1 n2 ph' ->
    node_fails n1 st (addev w (Enter n1)) e w1 ->
    phase_step ph st w (Raised e w1)
| ps_pair_fail2 ph n1 n2 ph' st w msgs1 c1 w1 e w2 :
    pair_of ph n1 n2 ph' ->
    node_ok n1 st (addev w (Enter n1)) msgs1 c1 w1 ->
    node_fails n2 st (addev (addev w1 (Leave n1)) (Enter n2)) e w2 ->
    phase_step ph st w (Raised e w2)
| ps_gate_end st w :
    converged st (heap w) = true ->
    phase_step PGate st w
      (Ok (st, [])
          (addev (addev (addev w (Enter supervisor)) (Leave supervisor))
                 (Commit st)))
| ps_gate_loop st w :
    converged st (heap w) = false ->
    phase_step PGate st w
      (Ok (st, active_of PCritique)
          (addev (addev (addev w (Enter supervisor)) (Leave supervisor))
                 (Commit st))).

End Semantics.

(** The events since the trace was [pre] all satisfy [phi]. *)
Definition trace_since (pre : list Event) (phi : Event -> Prop) (w : World)
    : Prop :=
  exists evs, trace w = pre ++ evs /\ Forall phi evs.

(** After the editor: it is not entered again, and every state committed has
    the edited text [e]. *)
Definition quiet (e : string) (ev : Event) : Prop :=
  match ev with
  | Enter n => n <> editor
  | Commit s => edit_text s = Some e
  | _ => True
  end.

(** How a run ends with respect to failed calls. *)
Definition abort_policy (t0 : list Event) (r : Result AppState) : Prop :=
  exists evs,
    trace (world_of r) = t0 ++ evs
    /\ ((Forall call_ok evs /\ forall w', r <> Raised GenerationFailure w')
        \/ (exists pre m,
              evs = pre ++ [Call m None] /\ Forall call_ok pre
              /\ exists w', r = Raised GenerationFailure w')).

(** Every draft list of [h'] is the one of [h] followed by a suffix. *)
Definition extends (h h' : Heap) : Prop :=
  forall l, exists suffix, drafts (h' l) = drafts (h l) ++ suffix.

(** The post a node works on, if any. *)
Definition workspace_of (n : Node) (st : AppState) : option loc :=
  match kind n st with
  | KWriter p | KCritique p => Some p
  | KEditor | KSupervisor => None
  end.

(** The fields of the state that the caller supplies are those of [st]. *)
Definition same_inputs (st st' : AppState) : Prop :=
  user_text st' = user_text st
  /\ target_audience st' = target_audience st
  /\ n_drafts st' = n_drafts st
  /\ tweet st' = tweet st
  /\ linkedin_post st' = linkedin_post st.

(** What the next superstep needs to read [drafts[-1]] safely. *)
Definition index_safe (ph : Phase) (st : AppState) (w : World) : Prop :=
  match ph with
  | PEdit | PWrite =>
      can_index (KWriter (tweet st)) (heap w)
      /\ can_index (KWriter (linkedin_post st)) (heap w)
  | PGate | PCritique =>
      drafts (heap w (tweet st)) <> []
      /\ drafts (heap w (linkedin_post st)) <> []
  end.

(** The number of turns of the loop still to come, seen from the gate. *)
Definition rounds_left (st : AppState) (h : Heap) : nat :=
  Z.to_nat (n_drafts st
            - Z.min (len (drafts (h (tweet st))))
                    (len (drafts (h (linkedin_post st))))).

(** ** Sample inputs *)

(** A service that answers every call with the number of the call. *)
Definition echo_llm : nat -> list Message -> option string :=
  fun i _ => Some (String (ascii_of_nat (48 + i)) EmptyString).

(** A service whose [k]-th call raises. *)
Definition failing_llm (k : nat) : nat -> list Message -> option string :=
  fun i m => if Nat.eqb i k then None else echo_llm i m.

(** ** The instructions, as the service receives them *)

(** The draft and its feedback, framed for a revision. *)
Definition revision_block (label d f : string) : string :=
  (label ++ ":
```
" ++ d ++ "
```

Use the feedback to improve it:
```
" ++ f ++ "
```")%string.

(** The user instruction of a writer, around the part [fbp] that carries the
    feedback. *)
Definition writer_instruction (e fbp aud : string) : string :=
  ("text:
```
" ++ e ++ "
```

" ++ fbp ++ "

Target audience: " ++ aud ++ "

Write only the text for the post")%string.

(** The user instruction of a critique of the draft [d]. *)
Definition critique_instruction (what e d aud : string) : string :=
  ("Full post:
```
" ++ e ++ "
```

Suggested " ++ what ++ " (critique this):
```
" ++ d ++ "
```

Target audience:" ++ PyStr.rstrip (" " ++ aud ++ "
"))%string.

(** The feedback part of a writer's instruction, as the code builds it: the
    revision block when the feedback is set and not empty. *)
Definition feedback_part (label : string) (p : Post) : string :=
  match feedback p with
  | Some f => if PyStr.truthy f
              then revision_block label (last (drafts p) ""%string) f
              else ""%string
  | None => ""%string
  end.

(** Following the words of the specification: the revision block if and only
    if feedback is present. *)
Definition spec_feedback_part (label : string) (p : Post) : string :=
  match feedback p with
  | Some f => revision_block label (last (drafts p) ""%string) f
  | None => ""%string
  end.

(** A writer's run on the post at [l], given the messages it sends. *)
Definition writer_outcome (llm : nat -> list Message -> option string)
    (msgs : list Message) (l : loc) (u : Update) (w : World) : Result Update :=
  match llm (ncalls w) msgs with
  | Some c =>
      Ok u (mkWorld (upd (heap w) l
                       (mkPost (drafts (heap w l) ++ [c])
                               (feedback (heap w l))))
                    (S (ncalls w)) (trace w ++ [Call msgs (Some c)]))
  | None => Raised GenerationFailure (called w msgs None)
  end.

(** A critique's run on the post at [l], given the messages it sends. *)
Definition critique_outcome (llm : nat -> list Message -> option string)
    (msgs : list Message) (l : loc) (u : Update) (w : World) : Result Update :=
  match llm (ncalls w) msgs with
  | Some c =>
      Ok u (mkWorld (upd (heap w) l (mkPost (drafts (heap w l)) (Some c)))
                    (S (ncalls w)) (trace w ++ [Call msgs (Some c)]))
  | None => Raised GenerationFailure (called w msgs None)
  end.

(** A service whose critique of the first tweet is the empty text. *)
Definition blank_critique_llm : nat -> list Message -> option string :=
  fun i m => if Nat.eqb i 3 then Some ""%string else echo_llm i m.

(** Some writer call with the system prompt [sys] carried the words of the
    revision block. *)
Definition revision_sent (sys : string) (evs : list Event) : bool :=
  existsb (fun ev =>
             match ev with
             | Call [SystemMessage s; HumanMessage m] _ =>
                 String.eqb s sys
                 && PyStr.contains "Use the feedback to improve it" m
             | _ => false
             end) evs.

(** ** Configurations a run goes through *)

(** The configurations at the boundaries between supersteps of the run that
    starts from [st0] and [w0]: the nodes to run next, the state, the
    world. *)
Inductive reachable (llm : nat -> list Message -> option string)
    (st0 : AppState) (w0 : World) : list Node -> AppState -> World -> Prop :=
| reach_start : reachable llm st0 w0 [editor] st0 w0
| reach_step act st w st' next w' :
    reachable llm st0 w0 act st w ->
    act <> [] ->
    superstep (build_graph llm) st act w = Ok (st', next) w' ->
    reachable llm st0 w0 next st' w'.

(** After [k > 0] critiques by the node [cn] have returned, the feedback of
    the post at [l] is the answer to the critique of its [k]-th draft; before
    the first, it is unset. *)
Definition critique_link (sys what : string) (cn : Node) (l : loc)
    (st : AppState) (w : World) : Prop :=
  match count (is_leave cn) (trace w) with
  | O => feedback (heap w l) = None
  | S k =>
      exists e d c,
        edit_text st = Some e
        /\ nth_error (drafts (heap w l)) k = Some d
        /\ feedback (heap w l) = Some c
        /\ In (Call [SystemMessage sys;
                     HumanMessage
                       (critique_instruction what e d (target_audience st))]
                    (Some c))
              (trace w)
  end.

(** The writers run next. *)
Definition writes_next (act : list Node) : bool :=
  match act with
  | editor :: _ | tweet_writer :: _ => true
  | _ => false
  end.

(** What holds of one post at a boundary between supersteps. *)
Definition critique_side (sys what : string) (cn : Node) (l : loc)
    (act : list Node) (st : AppState) (w : World) : Prop :=
  critique_link sys what cn l st w
  /\ List.length (drafts (heap w l))
     = count (is_leave cn) (trace w) + (if writes_next act then 0 else 1)
  /\ (act = [editor] -> count (is_leave cn) (trace w) = 0).

(** What holds at every boundary between supersteps of a run that starts
    from [st0] with two new posts. *)
Definition boundary_inv (st0 : AppState) (act : list Node) (st : AppState)
    (w : World) : Prop :=
  (act = [] \/ exists ph, act = active_of ph)
  /\ tweet st = tweet st0
  /\ linkedin_post st = linkedin_post st0
  /\ (act <> [editor] -> edit_text st <> None)
  /\ critique_side TWITTER_CRITIQUE_PROMPT "tweet" tweet_critique
       (tweet st0) act st w
  /\ critique_side LINKEDIN_CRITIQUE_PROMPT "LinkedIn post" linkedin_critique
       (linkedin_post st0) act st w.

(** ** The page: [display_drafts] and the body of [main]

    The page library's calls are modelled by what they put on the page:
    [st.subheader], [st.write], [st.error], [with st.expander(label)] and
    [st.tabs] become the elements below, in the order of the calls.  The
    header of the page and the input widgets are not rendered here; the
    values the widgets deliver on one run of the script are the [Inputs]. *)

#[warnings="-register-all"]
Inductive Element :=
| Subheader (text : string)
| Write (text : string)
| ErrorBox (text : string)
| Expander (label : string) (body : list Element)
| Tabs (tabs : list (string * list Element)).

(** [str(n)] for a natural number. *)
Definition str_nat (n : nat) : string :=
  DecimalString.NilEmpty.string_of_uint (Nat.to_uint n).

(** [st.session_state]: the two keys [main] uses, each present or not. *)
Record Session := mkSession {
  generated_state : option (AppState * Heap);
  show_results : option bool
}.

Definition new_session : Session := mkSession None None.

(** The values of the widgets on one run of the script. *)
Record Inputs := mkInputs {
  button : bool;              (* st.button("Generate Posts") *)
  groq_api_key : string;      (* st.text_input(..., type="password") *)
  in_n_drafts : Z;            (* st.number_input(min_value=1, max_value=5) *)
  in_target_audience : string;
  in_user_text : string       (* st.text_area(..., max_chars=1000) *)
}.

(** One run of the script: the page, or an exception nobody catches. *)
Inductive Rendered :=
| Page (session : Session) (elements : list Element)
| Crash (e : Exception).

Section Page.

(** [textwrap.fill(text, width)], from the standard library. *)
Variable fill : string -> nat -> string.

(** [str(e)] for an exception. *)
Variable describe : Exception -> string.

(** [ChatGroq(temperature=0.7, model_name=..., api_key=key)]: the service
    behind an API key. *)
Variable ChatGroq : string -> nat -> list Message -> option string.

(** The loop of [display_drafts], from index [i] on. *)
Fixpoint display_from (platform : string) (i : nat) (ds : list string)
    : list Element :=
  match ds with
  | [] => []
  | draft :: rest =>
      Expander (platform ++ " Draft #" ++ str_nat (i + 1))%string
        [Write (if String.eqb platform "Twitter" then fill draft 80
                else draft)]
      :: display_from platform (S i) rest
  end.

Definition display_drafts (post : Post) (platform : string) : list Element :=
  display_from platform 0 (drafts post)
  ++ (if falsy (feedback post) then []
      else [Expander (platform ++ " Feedback")%string
              [Write (format_opt (feedback post))]]).

(** The part of [main] under [if st.session_state.get('show_results', False)]. *)
Definition show (s : Session) : Exception + list Element :=
  if pick (show_results s) false then
    match generated_state s with
    | None => inl KeyError
    | Some (state, h) =>
        match edit_text state with
        | None => inl KeyError
        | Some e =>
            inr [Subheader "Edited Text";
                 Expander "View edited text" [Write e];
                 Tabs [("Twitter Content"%string,
                        Subheader "Twitter Drafts"
                        :: display_drafts (h (tweet state)) "Twitter");
                       ("LinkedIn Content"%string,
                        Subheader "LinkedIn Drafts"
                        :: display_drafts (h (linkedin_post state))
                             "LinkedIn")]]
        end
    end
  else inr [].

(** The condition of the [if] that starts a generation. *)
Definition triggered (inp : Inputs) : bool :=
  button inp && PyStr.truthy (groq_api_key inp)
  && PyStr.truthy (in_user_text inp).

(** The body of [main] from the button on: the generation in its [try]
    block, then the display. *)
Definition main_step (recursion_limit : nat) (inp : Inputs) (s : Session)
    : Rendered :=
  let generated :=
    if triggered inp then
      let llm := ChatGroq (groq_api_key inp) in
      match invoke (build_graph llm) recursion_limit
              (main_input (in_user_text inp) (in_target_audience inp)
                          (in_n_drafts inp)) main_world with
      | Ok state w => (mkSession (Some (state, heap w)) (Some true), [])
      | Raised e _ =>
          (s, [ErrorBox ("An error occurred: " ++ describe e)%string])
      end
    else (s, []) in
  match show (fst generated) with
  | inl e => Crash e
  | inr elements => Page (fst generated) (snd generated ++ elements)
  end.

(** The script run again and again, as the user acts on the page. *)
Fixpoint main_steps (recursion_limit : nat) (inps : list Inputs) (s : Session)
    : Rendered :=
  match inps with
  | [] => Page s []
  | inp :: rest =>
      match main_step recursion_limit inp s with
      | Page s' elements =>
          match rest with
          | [] => Page s' elements
          | _ :: _ => main_steps recursion_limit rest s'
          end
      | Crash e => Crash e
      end
  end.

End Page.

(** The session holds what the display reads. *)
Definition session_ok (s : Session) : Prop :=
  pick (show_results s) false = true ->
  exists state h e, generated_state s = Some (state, h)
                    /\ edit_text state = Some e.

(** The labels of the expanders of a list of elements. *)
Fixpoint labels (es : list Element) : list string :=
  match es with
  | [] => []
  | Expander label _ :: rest => label :: labels rest
  | _ :: rest => labels rest
  end.

(** The state with its target audience replaced. *)
Definition with_audience (aud : string) (st : AppState) : AppState :=
  mkState (user_text st) aud (edit_text st) (tweet st) (linkedin_post st)
          (n_drafts st).

(** The number of drafts per post of a run that returns. *)
Definition drafts_due (n : Z) : nat := Z.to_nat (Z.max 1 n).

(** * Proofs *)

(** ** Lists, counts and updates *)

Lemma rev_nil_inv {A} (l : list A) : rev l = [] -> l = [].
Proof.
  destruct l as [|a l]; [reflexivity|]. simpl. intros H.
  destruct (rev l); discriminate.
Qed.

Lemma rev_cons_nonempty {A} (l : list A) x r : rev l = x :: r -> l <> [].
Proof. intros H ->. discriminate. Qed.

Lemma last_rev {A} (l : list A) x r d : rev l = x :: r -> last l d = x.
Proof.
  intros H. rewrite <- (rev_involutive l), H. cbn [rev]. apply last_last.
Qed.

Lemma nonempty_last {A} (xs : list A) n :
  List.length xs = n + 1 -> exists ds d, xs = ds ++ [d].
Proof.
  intros H. destruct (exists_last (l := xs)) as (ds & d & E).
  - intros ->. cbn in H. lia.
  - exists ds, d. exact E.
Qed.

Lemma count_app f a b : count f (a ++ b) = count f a + count f b.
Proof. unfold count. rewrite filter_app, length_app. reflexivity. Qed.

Lemma len_app xs c : len (xs ++ [c]) = (len xs + 1)%Z.
Proof. unfold len. rewrite length_app. cbn. lia. Qed.

Lemma apply_update_id st t l :
  (t = None \/ t = Some (tweet st)) ->
  (l = None \/ l = Some (linkedin_post st)) ->
  apply_update (mkUpdate None None None t l None) st = st.
Proof. destruct st. intros [->| ->] [->| ->]; reflexivity. Qed.

Lemma apply_update_whole st : apply_update (whole st) st = st.
Proof. destruct st as [? ? [e|] ? ? ?]; reflexivity. Qed.

Lemma upd_same h l p : upd h l p l = p.
Proof. unfold upd. rewrite Nat.eqb_refl. reflexivity. Qed.

Lemma upd_other h l p l' : l' <> l -> upd h l p l' = h l'.
Proof. unfold upd. intros H. apply Nat.eqb_neq in H. rewrite H. reflexivity. Qed.

(** ** Python's [strip] on the templates *)

Section Strings.

Import PyStr.
Local Open Scope string_scope.

Lemma append_nonempty a b : b <> "" -> a ++ b <> "".
Proof. destruct a; [exact (fun H => H)|discriminate]. Qed.

Lemma append_assoc a b c : (a ++ b) ++ c = a ++ b ++ c.
Proof. induction a as [|x a IH]; cbn; [reflexivity|rewrite IH; reflexivity]. Qed.

Lemma append_empty_r a : a ++ "" = a.
Proof. induction a as [|x a IH]; cbn; [reflexivity|rewrite IH; reflexivity]. Qed.

Lemma rstrip_app_gen a b :
  rstrip (a ++ b)
  = match rstrip b with "" => rstrip a | _ => a ++ rstrip b end.
Proof.
  induction a as [|x a IH].
  - cbn [append rstrip]. destruct (rstrip b); reflexivity.
  - cbn [append rstrip]. rewrite IH. destruct (rstrip b) as [|y r].
    + reflexivity.
    + destruct a; reflexivity.
Qed.

(** [rstrip] leaves alone what comes before a part that it does not erase. *)
Lemma rstrip_app a b : rstrip b <> "" -> rstrip (a ++ b) = a ++ rstrip b.
Proof.
  intros Hb. rewrite rstrip_app_gen. destruct (rstrip b); [congruence|reflexivity].
Qed.

(** ... and what it would not touch itself. *)
Lemma rstrip_app_fixed a b : rstrip a = a -> rstrip (a ++ b) = a ++ rstrip b.
Proof.
  intros Ha. rewrite rstrip_app_gen. destruct (rstrip b).
  - rewrite append_empty_r. exact Ha.
  - reflexivity.
Qed.

Lemma rstrip_app_nonempty a b : rstrip b <> "" -> rstrip (a ++ b) <> "".
Proof. intros Hb. rewrite rstrip_app by assumption. apply append_nonempty, Hb. Qed.

Lemma lstrip_lit c1 c2 s t :
  isspace c1 = true -> isspace c2 = false ->
  lstrip (String c1 (String c2 s) ++ t) = String c2 s ++ t.
Proof. intros H1 H2. cbn [append lstrip]. rewrite H1, H2. reflexivity. Qed.

Ltac rstrip_ne :=
  repeat (apply rstrip_app_nonempty); vm_compute; discriminate.

Lemma strip_writer_prompt e fbp aud :
  strip ("
text:
```
" ++ e ++ "
```

" ++ fbp ++ "

Target audience: " ++ aud ++ "

Write only the text for the post
") = writer_instruction e fbp aud.
Proof.
  unfold strip, writer_instruction.
  rewrite lstrip_lit by reflexivity.
  do 6 (rewrite rstrip_app; [|rstrip_ne]). reflexivity.
Qed.

Lemma strip_tweet_block d f :
  strip ("
Tweet:
```
" ++ d ++ "
```

Use the feedback to improve it:
```
" ++ f ++ "
```
") = revision_block "Tweet" d f.
Proof.
  unfold strip, revision_block.
  rewrite lstrip_lit by reflexivity.
  do 4 (rewrite rstrip_app; [|rstrip_ne]). reflexivity.
Qed.

Lemma strip_linkedin_block d f :
  strip ("
LinkedIn post:
```
" ++ d ++ "
```

Use the feedback to improve it:
```
" ++ f ++ "
```
") = revision_block "LinkedIn post" d f.
Proof.
  unfold strip, revision_block.
  rewrite lstrip_lit by reflexivity.
  do 4 (rewrite rstrip_app; [|rstrip_ne]). reflexivity.
Qed.

Lemma strip_critique_prompt what e d aud :
  strip ("
Full post:
```
" ++ e ++ "
```

Suggested " ++ what ++ " (critique this):
```
" ++ d ++ "
```

Target audience: " ++ aud ++ "
") = critique_instruction what e d aud.
Proof.
  unfold strip, critique_instruction.
  rewrite lstrip_lit by reflexivity.
  assert (Hne : rstrip ("
```

Target audience: " ++ aud ++ "
") = "
```

Target audience:" ++ rstrip (" " ++ aud ++ "
")).
  { change ("
```

Target audience: " ++ aud ++ "
") with ("
```

Target audience:" ++ " " ++ aud ++ "
").
    apply rstrip_app_fixed. reflexivity. }
  assert (Hn : rstrip ("
```

Target audience: " ++ aud ++ "
") <> "") by (rewrite Hne; discriminate).
  do 6 (rewrite rstrip_app;
        [|repeat (first [exact Hn | apply rstrip_app_nonempty])]).
  rewrite Hne. reflexivity.
Qed.

Lemma strip_tweet_critique e d aud :
  PyStr.strip ("
Full post:
```
" ++ e ++ "
```

Suggested tweet (critique this):
```
" ++ d ++ "
```

Target audience: " ++ aud ++ "
") = critique_instruction "tweet" e d aud.
Proof. exact (strip_critique_prompt "tweet" e d aud). Qed.

Lemma strip_linkedin_critique e d aud :
  PyStr.strip ("
Full post:
```
" ++ e ++ "
```

Suggested LinkedIn post (critique this):
```
" ++ d ++ "
```

Target audience: " ++ aud ++ "
") = critique_instruction "LinkedIn post" e d aud.
Proof. exact (strip_critique_prompt "LinkedIn post" e d aud). Qed.

Lemma revision_block_nonempty label d f : revision_block label d f <> ""%string.
Proof.
  unfold revision_block. apply append_nonempty. discriminate.
Qed.

End Strings.

(** ** The store *)

Ltac heap_simpl Hd Hd' :=
  repeat first [ rewrite upd_same
               | rewrite (upd_other _ _ _ _ Hd)
               | rewrite (upd_other _ _ _ _ Hd')
               | progress cbn [drafts feedback] ].

Lemma extends_refl h : extends h h.
Proof. intros l. exists []. rewrite app_nil_r. reflexivity. Qed.

Lemma extends_trans h1 h2 h3 : extends h1 h2 -> extends h2 h3 -> extends h1 h3.
Proof.
  intros H12 H23 l. destruct (H12 l) as [s1 E1], (H23 l) as [s2 E2].
  exists (s1 ++ s2). rewrite E2, E1, app_assoc. reflexivity.
Qed.

Lemma extends_effect k c h : extends h (effect k c h).
Proof.
  intros l. destruct k as [|p|p|]; cbn [effect];
    try (exists []; rewrite app_nil_r; reflexivity).
  - destruct (Nat.eq_dec l p) as [->|Hne].
    + rewrite upd_same. exists [c]. reflexivity.
    + rewrite upd_other by assumption. exists []. rewrite app_nil_r. reflexivity.
  - destruct (Nat.eq_dec l p) as [->|Hne].
    + rewrite upd_same. exists []. rewrite app_nil_r. reflexivity.
    + rewrite upd_other by assumption. exists []. rewrite app_nil_r. reflexivity.
Qed.

Lemma nonempty_effect k c h x :
  drafts (h x) <> [] -> drafts (effect k c h x) <> [].
Proof.
  intros Hne. destruct (extends_effect k c h x) as [suf E]. rewrite E.
  destruct (drafts (h x)); [congruence|discriminate].
Qed.

Lemma writer_nonempty p c h : drafts (effect (KWriter p) c h p) <> [].
Proof.
  cbn [effect]. rewrite upd_same. cbn [drafts].
  destruct (drafts (h p)); discriminate.
Qed.

Lemma can_index_after_writer x p c h :
  can_index (KWriter x) h -> can_index (KWriter x) (effect (KWriter p) c h).
Proof.
  intros Hc. destruct (Nat.eq_dec x p) as [->|Hne].
  - right. apply writer_nonempty.
  - cbn [can_index effect] in *. rewrite upd_other by assumption. exact Hc.
Qed.

(** ** What one node does *)

Section NodeFacts.

Variable llm : nat -> list Message -> option string.

Ltac node_unfold :=
  cbv [editor_node tweet_writer_node linkedin_writer_node critique_tweet_node
       critique_linkedin_node bind ret raise get_feedback deref drafts_last
       last_item get_edit_text llm_invoke drafts_append set_feedback store];
  cbn [heap ncalls trace].

Ltac node_case :=
  match goal with
  | |- context [falsy ?x] => destruct (falsy x) eqn:?Hfalsy
  | |- context [rev ?x] => destruct (rev x) eqn:?Hrev
  | |- context [edit_text ?s] => destruct (edit_text s) eqn:?Hedit
  | |- context [llm ?i ?m] => destruct (llm i m) eqn:?Hllm
  end; cbn [heap ncalls trace].

Ltac node_prep :=
  repeat match goal with
  | H : rev _ = [] |- _ => apply rev_nil_inv in H
  | H : rev _ = _ :: _ |- _ => apply rev_cons_nonempty in H
  end.

Ltac node_done n :=
  first
    [ eapply (nr_ok llm n);
      [ eapply (node_ok_intro llm n);
        [ discriminate | eassumption
        | cbn; first [exact I | intuition congruence]
        | cbn; intuition congruence ]
      | first [reflexivity | apply apply_update_id; auto] ]
    | apply nr_raise; eapply (nf_llm llm n);
      [ discriminate | eassumption
      | cbn; first [exact I | intuition congruence] ]
    | apply nr_raise; apply nf_key; [exact I | assumption]
    | apply nr_raise; apply nf_index; cbn; intuition congruence ].

Ltac node_spec n := node_unfold; repeat node_case; node_prep; node_done n.

Lemma editor_result st w :
  node_result llm editor st w (editor_node llm st w).
Proof. node_spec editor. Qed.

Lemma tweet_writer_result st w :
  node_result llm tweet_writer st w (tweet_writer_node llm st w).
Proof. node_spec tweet_writer. Qed.

Lemma linkedin_writer_result st w :
  node_result llm linkedin_writer st w (linkedin_writer_node llm st w).
Proof. node_spec linkedin_writer. Qed.

Lemma critique_tweet_result st w :
  node_result llm tweet_critique st w (critique_tweet_node llm st w).
Proof. node_spec tweet_critique. Qed.

Lemma critique_linkedin_result st w :
  node_result llm linkedin_critique st w (critique_linkedin_node llm st w).
Proof. node_spec linkedin_critique. Qed.

Lemma extends_node_ok n st w msgs c w' :
  node_ok llm n st w msgs c w' -> extends (heap w) (heap w').
Proof. intros []. apply extends_effect. Qed.

Lemma fails_heap n st w e w' :
  node_fails llm n st w e w' -> heap w' = heap w.
Proof. intros []; reflexivity. Qed.

Lemma tweet_writer_node_eq st w e :
  edit_text st = Some e ->
  can_index (KWriter (tweet st)) (heap w) ->
  tweet_writer_node llm st w
  = writer_outcome llm
      [SystemMessage TWITTER_PROMPT;
       HumanMessage
         (writer_instruction e (feedback_part "Tweet" (heap w (tweet st)))
                             (target_audience st))]
      (tweet st) (mkUpdate None None None (Some (tweet st)) None None) w.
Proof.
  intros He Hc.
  cbv [tweet_writer_node bind ret raise get_feedback deref drafts_last
       last_item get_edit_text llm_invoke drafts_append store writer_outcome
       feedback_part called].
  rewrite He. cbn [can_index] in Hc.
  destruct (feedback (heap w (tweet st))) as [[|a f]|] eqn:Ef;
    cbn [falsy PyStr.truthy negb format_opt];
    try (rewrite strip_writer_prompt;
         destruct (llm (ncalls w) _); cbn [heap ncalls trace];
         rewrite ?Ef; reflexivity).
  destruct (rev (drafts (heap w (tweet st)))) as [|x r] eqn:Er.
  - apply rev_nil_inv in Er.
    destruct Hc as [Hc|Hc]; [cbn in Hc; discriminate|congruence].
  - rewrite (last_rev _ _ _ ""%string Er).
    rewrite strip_tweet_block, strip_writer_prompt.
    destruct (llm (ncalls w) _); cbn [heap ncalls trace];
      rewrite ?Ef; reflexivity.
Qed.

Lemma linkedin_writer_node_eq st w e :
  edit_text st = Some e ->
  can_index (KWriter (linkedin_post st)) (heap w) ->
  linkedin_writer_node llm st w
  = writer_outcome llm
      [SystemMessage LINKEDIN_PROMPT;
       HumanMessage
         (writer_instruction e
            (feedback_part "LinkedIn post" (heap w (linkedin_post st)))
            (target_audience st))]
      (linkedin_post st)
      (mkUpdate None None None None (Some (linkedin_post st)) None) w.
Proof.
  intros He Hc.
  cbv [linkedin_writer_node bind ret raise get_feedback deref drafts_last
       last_item get_edit_text llm_invoke drafts_append store writer_outcome
       feedback_part called].
  rewrite He. cbn [can_index] in Hc.
  destruct (feedback (heap w (linkedin_post st))) as [[|a f]|] eqn:Ef;
    cbn [falsy PyStr.truthy negb format_opt];
    try (rewrite strip_writer_prompt;
         destruct (llm (ncalls w) _); cbn [heap ncalls trace];
         rewrite ?Ef; reflexivity).
  destruct (rev (drafts (heap w (linkedin_post st)))) as [|x r] eqn:Er.
  - apply rev_nil_inv in Er.
    destruct Hc as [Hc|Hc]; [cbn in Hc; discriminate|congruence].
  - rewrite (last_rev _ _ _ ""%string Er).
    rewrite strip_linkedin_block, strip_writer_prompt.
    destruct (llm (ncalls w) _); cbn [heap ncalls trace];
      rewrite ?Ef; reflexivity.
Qed.

Lemma critique_tweet_node_eq st w e ds d :
  edit_text st = Some e ->
  drafts (heap w (tweet st)) = ds ++ [d] ->
  critique_tweet_node llm st w
  = critique_outcome llm
      [SystemMessage TWITTER_CRITIQUE_PROMPT;
       HumanMessage (critique_instruction "tweet" e d (target_audience st))]
      (tweet st) (mkUpdate None None None (Some (tweet st)) None None) w.
Proof.
  intros He Hd.
  cbv [critique_tweet_node bind ret raise deref drafts_last last_item
       get_edit_text llm_invoke set_feedback store critique_outcome called].
  rewrite He, Hd, rev_unit, strip_tweet_critique.
  destruct (llm (ncalls w) _); cbn [heap ncalls trace]; rewrite ?Hd;
    reflexivity.
Qed.

Lemma critique_linkedin_node_eq st w e ds d :
  edit_text st = Some e ->
  drafts (heap w (linkedin_post st)) = ds ++ [d] ->
  critique_linkedin_node llm st w
  = critique_outcome llm
      [SystemMessage LINKEDIN_CRITIQUE_PROMPT;
       HumanMessage
         (critique_instruction "LinkedIn post" e d (target_audience st))]
      (linkedin_post st)
      (mkUpdate None None None None (Some (linkedin_post st)) None) w.
Proof.
  intros He Hd.
  cbv [critique_linkedin_node bind ret raise deref drafts_last last_item
       get_edit_text llm_invoke set_feedback store critique_outcome called].
  rewrite He, Hd, rev_unit, strip_linkedin_critique.
  destruct (llm (ncalls w) _); cbn [heap ncalls trace]; rewrite ?Hd;
    reflexivity.
Qed.

End NodeFacts.

(** ** What one superstep does *)

Section Engine.

Variable llm : nat -> list Message -> option string.
#[local] Abbreviation G := (build_graph llm).

Lemma node_fn_result n st w : node_result llm n st w (node_fn G n st w).
Proof.
  destruct n.
  - apply editor_result.
  - apply tweet_writer_result.
  - apply critique_tweet_result.
  - apply linkedin_writer_result.
  - apply critique_linkedin_result.
  - apply nr_skip; [reflexivity|apply apply_update_whole].
Qed.

Lemma should_rewrite_eq st w :
  should_rewrite st w =
  Ok (if converged st (heap w) then END
      else Goto [linkedin_critique; tweet_critique]) w.
Proof.
  unfold should_rewrite, converged, bind, deref, ret.
  destruct (_ && _)%bool; reflexivity.
Qed.

Lemma converged_true_iff st h :
  converged st h = true
  <-> (n_drafts st <= len (drafts (h (tweet st)))
       /\ n_drafts st <= len (drafts (h (linkedin_post st))))%Z.
Proof. unfold converged. rewrite andb_true_iff, !Z.geb_le. tauto. Qed.

Lemma converged_false_iff st h :
  converged st h = false
  <-> (len (drafts (h (tweet st))) < n_drafts st
       \/ len (drafts (h (linkedin_post st))) < n_drafts st)%Z.
Proof.
  pose proof (converged_true_iff st h) as H.
  destruct (converged st h); split; intros; try discriminate; try lia;
    try reflexivity.
Qed.

Lemma superstep_one st n w (f : AppState -> M Update) next :
  node_fn G n = f ->
  route (branches G) n = (fun _ => ret []) ->
  filter (fun m => existsb (Node_eqb m) ((map snd (filter (fun e => Node_eqb (fst e) n) (edges G)) ++ []) ++ []))
         (map fst (nodes G)) = next ->
  superstep G st [n] w =
  match f st (addev w (Enter n)) with
  | Ok u w1 =>
      Ok (apply_update u st, next)
         (addev (addev w1 (Leave n)) (Commit (apply_update u st)))
  | Raised e w1 => Raised e w1
  end.
Proof.
  intros Hf Hr Hn.
  unfold superstep, run_tasks, run_task, bind. cbn [log]. rewrite Hf, Hr.
  fold (addev w (Enter n)).
  destruct (f st _) as [u w1|e w1]; [|reflexivity].
  unfold ret. cbn [fst snd fold_left]. rewrite Hn. reflexivity.
Qed.

Lemma superstep_two st n1 n2 w (f1 f2 : AppState -> M Update) next :
  node_fn G n1 = f1 -> node_fn G n2 = f2 ->
  route (branches G) n1 = (fun _ => ret []) ->
  route (branches G) n2 = (fun _ => ret []) ->
  filter (fun m => existsb (Node_eqb m)
            ((map snd (filter (fun e => Node_eqb (fst e) n1) (edges G)) ++ [])
             ++ (map snd (filter (fun e => Node_eqb (fst e) n2) (edges G)) ++ []) ++ []))
         (map fst (nodes G)) = next ->
  superstep G st [n1; n2] w =
  match f1 st (addev w (Enter n1)) with
  | Ok u1 w1 =>
      match f2 st (addev (addev w1 (Leave n1)) (Enter n2)) with
      | Ok u2 w2 =>
          Ok (apply_update u2 (apply_update u1 st), next)
             (addev (addev w2 (Leave n2))
                    (Commit (apply_update u2 (apply_update u1 st))))
      | Raised e w2 => Raised e w2
      end
  | Raised e w1 => Raised e w1
  end.
Proof.
  intros Hf1 Hf2 Hr1 Hr2 Hn.
  unfold superstep, run_tasks, run_task, bind. cbn [log]. rewrite Hf1, Hf2, Hr1, Hr2.
  fold (addev w (Enter n1)).
  destruct (f1 st _) as [u1 w1|e w1]; [|reflexivity].
  unfold ret. cbn [fst snd fold_left heap ncalls trace].
  fold (addev w1 (Leave n1)). fold (addev (addev w1 (Leave n1)) (Enter n2)).
  destruct (f2 st _) as [u2 w2|e w2]; [|reflexivity].
  cbn [fst snd fold_left]. rewrite Hn. reflexivity.
Qed.

Lemma superstep_gate st w :
  superstep G st [supervisor] w =
  Ok (st, if converged st (heap w) then [] else active_of PCritique)
     (addev (addev (addev w (Enter supervisor)) (Leave supervisor)) (Commit st)).
Proof.
  unfold superstep, run_tasks, run_task, bind. cbn [log].
  change (node_fn G supervisor) with (fun x : AppState => @ret Update (whole x)).
  cbv beta. unfold ret at 1.
  change (route (branches G) supervisor)
    with (fun s => r <- should_rewrite s ;; ts <- ret [] ;; ret (targets_of r ++ ts)).
  cbv beta. unfold bind. rewrite should_rewrite_eq.
  unfold ret. cbn [fst snd fold_left heap]. rewrite apply_update_whole.
  destruct (converged st (heap w)); reflexivity.
Qed.

Lemma node_ok_state n st w msgs c w' u :
  node_ok llm n st w msgs c w' -> n <> editor ->
  apply_update u st = state_after (kind n st) c st -> apply_update u st = st.
Proof. intros _ Hn ->. destruct n; try reflexivity. congruence. Qed.

Lemma superstep_phase ph st w :
  phase_step llm ph st w (superstep G st (active_of ph) w).
Proof.
  destruct ph; cbn [active_of].
  - rewrite (superstep_one st editor w (editor_node llm) (active_of PWrite));
      try reflexivity.
    pose proof (editor_result llm st (addev w (Enter editor))) as H.
    destruct (editor_node llm st _) as [u w1|e w1]; inversion H; subst.
    + discriminate.
    + match goal with H : apply_update _ _ = _ |- _ => rewrite H end.
      eapply ps_edit_ok; eassumption.
    + apply ps_edit_fail; assumption.
  - rewrite (superstep_two st tweet_writer linkedin_writer w
               (tweet_writer_node llm) (linkedin_writer_node llm)
               (active_of PGate)); try reflexivity.
    pose proof (tweet_writer_result llm st (addev w (Enter tweet_writer))) as R1.
    destruct (tweet_writer_node llm st _) as [u1 w1|e w1]; inversion R1; subst;
      [discriminate| |eapply ps_pair_fail1; [constructor|eassumption]].
    pose proof (linkedin_writer_result llm st
                  (addev (addev w1 (Leave tweet_writer)) (Enter linkedin_writer))) as R2.
    destruct (linkedin_writer_node llm st _) as [u2 w2|e w2]; inversion R2; subst;
      [discriminate| |eapply ps_pair_fail2; [constructor|eassumption..]].
    repeat match goal with H : apply_update _ _ = _ |- _ => cbn in H; rewrite H end.
    eapply ps_pair_ok; [constructor|eassumption..].
  - rewrite superstep_gate.
    destruct (converged st (heap w)) eqn:Hc; [apply ps_gate_end|apply ps_gate_loop]; assumption.
  - rewrite (superstep_two st tweet_critique linkedin_critique w
               (critique_tweet_node llm) (critique_linkedin_node llm)
               (active_of PWrite)); try reflexivity.
    pose proof (critique_tweet_result llm st (addev w (Enter tweet_critique))) as R1.
    destruct (critique_tweet_node llm st _) as [u1 w1|e w1]; inversion R1; subst;
      [discriminate| |eapply ps_pair_fail1; [constructor|eassumption]].
    pose proof (critique_linkedin_result llm st
                  (addev (addev w1 (Leave tweet_critique)) (Enter linkedin_critique))) as R2.
    destruct (critique_linkedin_node llm st _) as [u2 w2|e w2]; inversion R2; subst;
      [discriminate| |eapply ps_pair_fail2; [constructor|eassumption..]].
    repeat match goal with H : apply_update _ _ = _ |- _ => cbn in H; rewrite H end.
    eapply ps_pair_ok; [constructor|eassumption..].
Qed.

Lemma invoke_run fuel st w :
  invoke G fuel st w = run G fuel st (active_of PEdit) w.
Proof. reflexivity. Qed.

Lemma run_step fuel ph st w :
  run G (S fuel) st (active_of ph) w =
  match superstep G st (active_of ph) w with
  | Ok r w' => run G fuel (fst r) (snd r) w'
  | Raised e w' => Raised e w'
  end.
Proof. destruct ph; reflexivity. Qed.

Lemma run_done fuel st w : run G fuel st [] w = Ok st w.
Proof. destruct fuel; reflexivity. Qed.

Lemma phase_step_next ph st w st' next w' :
  phase_step llm ph st w (Ok (st', next) w') ->
  next = [] \/ exists ph', next = active_of ph'.
Proof.
  inversion 1; subst;
    first [ left; reflexivity
          | right; eexists; reflexivity
          | right; exists PWrite; reflexivity
          | right; exists PGate; reflexivity
          | right; exists PCritique; reflexivity ].
Qed.

(** Induction over the supersteps of a run: [P] holds of the configuration at
    every boundary between supersteps, [Q] of the result. *)
Lemma run_phase_ind
    (P : Phase -> AppState -> World -> Prop) (Q : Result AppState -> Prop) :
  (forall ph st w e w',
      P ph st w -> phase_step llm ph st w (Raised e w') -> Q (Raised e w')) ->
  (forall ph st w st' w',
      P ph st w -> phase_step llm ph st w (Ok (st', []) w') -> Q (Ok st' w')) ->
  (forall ph st w st' ph' w',
      P ph st w -> phase_step llm ph st w (Ok (st', active_of ph') w') ->
      P ph' st' w') ->
  (forall ph st w, P ph st w -> Q (Raised GraphRecursionError w)) ->
  forall fuel ph st w, P ph st w -> Q (run G fuel st (active_of ph) w).
Proof.
  intros Hraise Hend Hstep Hfuel.
  induction fuel as [|fuel IH]; intros ph st w HP.
  - destruct ph; apply (Hfuel _ _ _ HP).
  - assert (Hrun : run G (S fuel) st (active_of ph) w =
                   (r <- superstep G st (active_of ph) ;;
                    run G fuel (fst r) (snd r)) w)
      by (destruct ph; reflexivity).
    rewrite Hrun. unfold bind.
    pose proof (superstep_phase ph st w) as Hs.
    destruct (superstep G st (active_of ph) w) as [[st' next] w'|e w'].
    + cbn [fst snd].
      destruct (phase_step_next _ _ _ _ _ _ Hs) as [->|[ph' ->]].
      * destruct fuel; cbn [run]; eapply Hend; eassumption.
      * apply IH. eapply Hstep; eassumption.
    + eapply Hraise; eassumption.
Qed.

End Engine.

(** ** Running the graph forward *)

Ltac inv_step H :=
  inversion H; subst;
  try match goal with
      | Hp : pair_of _ _ _ _ |- _ => inversion Hp; subst; clear Hp
      end;
  try match goal with
      | Ha : active_of ?p = [] |- _ => destruct p; discriminate Ha
      | Ha : [] = active_of ?p |- _ => destruct p; discriminate Ha
      | Ha : _ = active_of ?p |- _ =>
          is_var p; destruct p; try discriminate Ha; clear Ha
      end.

Ltac world_eq :=
  unfold addev, called; cbn [heap ncalls trace effect kind state_after];
  rewrite <- ?app_assoc; reflexivity.

Ltac solve_index :=
  cbn; first [exact I | left; reflexivity | right; discriminate | discriminate].

Ltac no_fail :=
  match goal with
  | H : node_fails _ _ _ _ _ _ |- _ =>
      inversion H; subst; unfold addev, called in *;
      cbn [heap ncalls trace kind can_index reads_edit] in *;
      solve [ tauto | congruence
            | match goal with
              | Hc : forall c : string, _, Hn : ~ _ |- _ =>
                  exfalso; exact (Hn (Hc _))
              end
            | match goal with
              | Ha : forall m, ?f ?i m <> None, Hb : ?f ?i ?x = None |- _ =>
                  exfalso; exact (Ha x Hb)
              end ]
  end.

Section Forward.

Variable llm : nat -> list Message -> option string.
#[local] Abbreviation G := (build_graph llm).

(** The editor's superstep when its call is answered. *)
Lemma edit_forward st w :
  (forall m, llm (ncalls w) m <> None) ->
  exists msgs c,
    llm (ncalls w) msgs = Some c
    /\ superstep G st (active_of PEdit) w
       = Ok (state_after KEditor c st, active_of PWrite)
            (mkWorld (heap w) (S (ncalls w))
               (trace w ++ [Enter editor; Call msgs (Some c); Leave editor;
                            Commit (state_after KEditor c st)])).
Proof.
  intros Hl. pose proof (superstep_phase llm PEdit st w) as Hs.
  destruct (superstep G st (active_of PEdit) w) as [[st' next] w'|e w'];
    inv_step Hs; [|no_fail].
  match goal with H : node_ok _ _ _ _ _ _ _ |- _ => destruct H end.
  do 2 eexists. split; [eassumption|]. f_equal. world_eq.
Qed.

(** A superstep of two nodes when both calls are answered. *)
Lemma pair_forward ph n1 n2 ph' st w :
  pair_of ph n1 n2 ph' ->
  can_index (kind n1 st) (heap w) ->
  (forall c, can_index (kind n2 st) (effect (kind n1 st) c (heap w))) ->
  edit_text st <> None ->
  (forall m, llm (ncalls w) m <> None) ->
  (forall m, llm (S (ncalls w)) m <> None) ->
  exists msgs1 c1 msgs2 c2,
    llm (ncalls w) msgs1 = Some c1 /\ llm (S (ncalls w)) msgs2 = Some c2
    /\ superstep G st (active_of ph) w
       = Ok (st, active_of ph')
            (mkWorld (effect (kind n2 st) c2 (effect (kind n1 st) c1 (heap w)))
               (S (S (ncalls w)))
               (trace w ++ [Enter n1; Call msgs1 (Some c1); Leave n1;
                            Enter n2; Call msgs2 (Some c2); Leave n2;
                            Commit st])).
Proof.
  intros Hp Hc1 Hc2 He Hl1 Hl2.
  pose proof (superstep_phase llm ph st w) as Hs.
  destruct (superstep G st (active_of ph) w) as [[st' next] w'|e w'];
    destruct Hp; inv_step Hs.
  all: try match goal with
       | H : node_ok _ _ _ (addev _ (Enter ?n)) _ _ _ |- _ => destruct H
       end.
  all: try match goal with
       | H : node_ok _ _ _ _ _ _ _ |- _ => destruct H
       end.
  all: try (unfold addev, called in *; cbn [heap ncalls trace] in *;
            do 4 eexists; split; [eassumption|split; [eassumption|]];
            f_equal; world_eq).
  all: no_fail.
Qed.

(** A superstep of two nodes when the call of the first raises. *)
Lemma pair_fail1_forward ph n1 n2 ph' st w :
  pair_of ph n1 n2 ph' ->
  can_index (kind n1 st) (heap w) ->
  edit_text st <> None ->
  (forall m, llm (ncalls w) m = None) ->
  exists msgs,
    superstep G st (active_of ph) w
    = Raised GenerationFailure
        (mkWorld (heap w) (S (ncalls w))
                 (trace w ++ [Enter n1; Call msgs None])).
Proof.
  intros Hp Hc1 He Hl1.
  pose proof (superstep_phase llm ph st w) as Hs.
  destruct (superstep G st (active_of ph) w) as [[st' next] w'|e w'];
    destruct Hp; inv_step Hs.
  all: try match goal with
       | H : node_ok _ _ _ (addev _ (Enter ?n)) _ _ _ |- _ =>
           destruct H; unfold addev in *; cbn [ncalls] in *; congruence
       end.
  all: match goal with
       | H : node_fails _ _ _ _ _ _ |- _ =>
           inversion H; subst; unfold addev, called in *;
           cbn [heap ncalls trace kind can_index reads_edit] in *;
           try tauto; try congruence
       end.
  all: eexists; f_equal; world_eq.
Qed.

(** A superstep of two nodes when the call of the second raises. *)
Lemma pair_fail2_forward ph n1 n2 ph' st w :
  pair_of ph n1 n2 ph' ->
  can_index (kind n1 st) (heap w) ->
  (forall c, can_index (kind n2 st) (effect (kind n1 st) c (heap w))) ->
  edit_text st <> None ->
  (forall m, llm (ncalls w) m <> None) ->
  (forall m, llm (S (ncalls w)) m = None) ->
  exists msgs1 c1 msgs2,
    superstep G st (active_of ph) w
    = Raised GenerationFailure
        (mkWorld (effect (kind n1 st) c1 (heap w)) (S (S (ncalls w)))
                 (trace w ++ [Enter n1; Call msgs1 (Some c1); Leave n1;
                              Enter n2; Call msgs2 None])).
Proof.
  intros Hp Hc1 Hc2 He Hl1 Hl2.
  pose proof (superstep_phase llm ph st w) as Hs.
  destruct (superstep G st (active_of ph) w) as [[st' next] w'|e w'];
    destruct Hp; inv_step Hs.
  all: try match goal with
       | H : node_ok _ _ _ (addev _ (Enter ?n)) _ _ _ |- _ => destruct H
       end.
  all: try match goal with
       | H : node_ok _ _ _ _ _ _ _ |- _ =>
           destruct H; unfold addev in *; cbn [ncalls] in *; congruence
       end.
  all: match goal with
       | H : node_fails _ _ _ _ _ _ |- _ =>
           inversion H; subst; unfold addev, called in *;
           cbn [heap ncalls trace kind can_index reads_edit] in *;
           try tauto; try congruence
       end.
  all: try match goal with
       | Ha : forall m, ?f ?i m <> None, Hb : ?f ?i ?x = None |- _ =>
           exfalso; exact (Ha x Hb)
       | Hc : forall c : string, _, Hn : ~ _ |- _ =>
           exfalso; exact (Hn (Hc _))
       end.
  all: do 3 eexists; f_equal; world_eq.
Qed.

(** The supervisor's superstep. *)
Lemma gate_forward st w :
  superstep G st (active_of PGate) w
  = Ok (st, if converged st (heap w) then [] else active_of PCritique)
       (mkWorld (heap w) (ncalls w)
          (trace w ++ [Enter supervisor; Leave supervisor; Commit st])).
Proof. cbn [active_of]. rewrite superstep_gate. f_equal. world_eq. Qed.

(** The critiques' superstep, when it returns. *)
Lemma critique_step st w e dst dt dsl dl st' next w' :
  edit_text st = Some e ->
  tweet st <> linkedin_post st ->
  drafts (heap w (tweet st)) = dst ++ [dt] ->
  drafts (heap w (linkedin_post st)) = dsl ++ [dl] ->
  superstep G st (active_of PCritique) w = Ok (st', next) w' ->
  exists c1 c2,
    st' = st /\ next = active_of PWrite
    /\ w' = mkWorld
              (upd (upd (heap w) (tweet st) (mkPost (dst ++ [dt]) (Some c1)))
                   (linkedin_post st) (mkPost (dsl ++ [dl]) (Some c2)))
              (S (S (ncalls w)))
              (trace w
               ++ [Enter tweet_critique;
                   Call [SystemMessage TWITTER_CRITIQUE_PROMPT;
                         HumanMessage
                           (critique_instruction "tweet" e dt
                              (target_audience st))] (Some c1);
                   Leave tweet_critique; Enter linkedin_critique;
                   Call [SystemMessage LINKEDIN_CRITIQUE_PROMPT;
                         HumanMessage
                           (critique_instruction "LinkedIn post" e dl
                              (target_audience st))] (Some c2);
                   Leave linkedin_critique; Commit st]).
Proof.
  intros He Hd Ht Hl.
  cbn [active_of].
  rewrite (superstep_two llm st tweet_critique linkedin_critique w
             (critique_tweet_node llm) (critique_linkedin_node llm)
             (active_of PWrite)); try reflexivity.
  rewrite (critique_tweet_node_eq llm _ _ e dst dt He) by exact Ht.
  unfold critique_outcome at 1. cbn [addev heap ncalls trace].
  destruct (llm (ncalls w) _) as [c1|]; [|discriminate].
  rewrite (critique_linkedin_node_eq llm _ _ e dsl dl He).
  2:{ cbn [addev heap]. rewrite upd_other by congruence. exact Hl. }
  unfold critique_outcome. cbn [addev heap ncalls trace].
  destruct (llm (S (ncalls w)) _) as [c2|]; [|discriminate].
  intros [= <- <- <-]. exists c1, c2.
  rewrite !apply_update_id by auto.
  split; [reflexivity|]. split; [reflexivity|].
  unfold addev. cbn [heap ncalls trace]. rewrite Ht.
  rewrite (upd_other _ _ _ _ (not_eq_sym Hd)), Hl, <- !app_assoc.
  reflexivity.
Qed.

End Forward.

(** ** Facts that hold along every run *)

Section AlongRuns.

Variable llm : nat -> list Message -> option string.
#[local] Abbreviation G := (build_graph llm).

Lemma trace_since_addev pre phi w ev :
  trace_since pre phi w -> phi ev -> trace_since pre phi (addev w ev).
Proof.
  intros (evs & Ht & Hf) Hev. exists (evs ++ [ev]). cbn [addev trace].
  rewrite Ht, app_assoc. split; [reflexivity|].
  apply Forall_app; split; [assumption|]. constructor; [assumption|constructor].
Qed.

Lemma trace_since_node n st w msgs c w' pre phi :
  node_ok llm n st w msgs c w' -> phi (Call msgs (Some c)) ->
  trace_since pre phi w -> trace_since pre phi w'.
Proof.
  intros [] Hphi (evs & Ht & Hf). exists (evs ++ [Call msgs (Some c)]).
  cbn [trace]. rewrite Ht, app_assoc. split; [reflexivity|].
  apply Forall_app; split; [assumption|]. constructor; [assumption|constructor].
Qed.

Lemma trace_since_fails n st w e w' pre phi :
  node_fails llm n st w e w' -> (forall m, phi (Call m None)) ->
  trace_since pre phi w -> trace_since pre phi w'.
Proof.
  intros [msgs Hn Hl Hc|Hc|Hr He] Hphi Ht; [|exact Ht..].
  destruct Ht as (evs & Ht & Hf). exists (evs ++ [Call msgs None]).
  cbn [called trace]. rewrite Ht, app_assoc. split; [reflexivity|].
  apply Forall_app; split; [assumption|]. constructor; [apply Hphi|constructor].
Qed.

Lemma extends_run h0 fuel ph st w :
  extends h0 (heap w) ->
  extends h0 (heap (world_of (run G fuel st (active_of ph) w))).
Proof.
  apply (run_phase_ind llm (fun _ _ w => extends h0 (heap w))
           (fun r => extends h0 (heap (world_of r)))).
  - intros ph0 st0 w0 e w' HP Hs. cbn [world_of].
    inv_step Hs;
      repeat match goal with
             | H : node_fails _ _ _ _ _ _ |- _ =>
                 apply fails_heap in H; rewrite H; clear H
             | H : node_ok _ _ _ _ _ _ _ |- _ =>
                 apply extends_node_ok in H
             end; cbn [addev heap] in *; eauto using extends_trans.
  - intros ph0 st0 w0 st' w' HP Hs. cbn [world_of].
    inv_step Hs; assumption.
  - intros ph0 st0 w0 st' ph' w' HP Hs.
    inv_step Hs;
      repeat match goal with
             | H : node_ok _ _ _ _ _ _ _ |- _ =>
                 apply extends_node_ok in H
             end; cbn [addev heap] in *; eauto using extends_trans.
  - intros ph0 st0 w0 HP. exact HP.
Qed.

Lemma same_inputs_run st0 fuel ph st w :
  same_inputs st0 st ->
  forall st' w', run G fuel st (active_of ph) w = Ok st' w' ->
                 same_inputs st0 st'.
Proof.
  apply (run_phase_ind llm (fun _ st _ => same_inputs st0 st)
           (fun r => forall st' w', r = Ok st' w' -> same_inputs st0 st')).
  - discriminate.
  - intros ph0 s w0 s' w' HP Hs ? ? [= <- <-]. inv_step Hs. assumption.
  - intros ph0 s w0 s' ph' w' HP Hs. inv_step Hs; assumption.
  - discriminate.
Qed.

Lemma run_reachable st0 w0 fuel :
  forall act st w st' w',
    reachable llm st0 w0 act st w ->
    run G fuel st act w = Ok st' w' ->
    reachable llm st0 w0 [] st' w'.
Proof.
  induction fuel as [|fuel IH]; intros act st w st' w' Hreach Hrun.
  - destruct act; [|discriminate]. injection Hrun as <- <-. exact Hreach.
  - destruct act as [|n act]; [injection Hrun as <- <-; exact Hreach|].
    cbn [run] in Hrun. unfold bind in Hrun.
    destruct (superstep G st (n :: act) w) as [[st1 next] w1|] eqn:E;
      [|discriminate].
    apply (IH next st1 w1); [|exact Hrun].
    eapply reach_step; [exact Hreach|discriminate|exact E].
Qed.

End AlongRuns.

(** ** C1: the convergence gate *)

Section Gate.

Variable llm : nat -> list Message -> option string.
#[local] Abbreviation G := (build_graph llm).

(** C1.  [should_rewrite] returns [END] exactly when both draft lists have at
    least [n_drafts] entries; in every other case it returns both critique
    nodes, also when one of the two lists alone is long enough.  In the
    graph: the writers' superstep is followed by the supervisor alone, and
    the supervisor's superstep is followed by no node when the condition
    holds and by both critique nodes otherwise. *)
Theorem C1_convergence_gate (st : AppState) (w : World) :
  let t := len (drafts (heap w (tweet st))) in
  let l := len (drafts (heap w (linkedin_post st))) in
  let n := n_drafts st in
  (should_rewrite st w = Ok END w <-> (t >= n /\ l >= n)%Z)
  /\ (~ (t >= n /\ l >= n)%Z ->
      should_rewrite st w = Ok (Goto [linkedin_critique; tweet_critique]) w)
  /\ (forall st' next w',
        superstep G st [tweet_writer; linkedin_writer] w = Ok (st', next) w' ->
        next = [supervisor])
  /\ ((t >= n /\ l >= n)%Z ->
      exists w', superstep G st [supervisor] w = Ok (st, []) w')
  /\ (~ (t >= n /\ l >= n)%Z ->
      exists w',
        superstep G st [supervisor] w
        = Ok (st, [tweet_critique; linkedin_critique]) w').
Proof.
  intros t l n.
  assert (Hc : converged st (heap w) = true <-> (t >= n /\ l >= n)%Z).
  { unfold converged. fold t l n. rewrite andb_true_iff, !Z.geb_le. lia. }
  assert (Hw : forall st' next w',
             superstep G st [tweet_writer; linkedin_writer] w
             = Ok (st', next) w' -> next = [supervisor]).
  { intros st' next w' Hr.
    pose proof (superstep_phase llm PWrite st w) as Hs.
    cbn [active_of] in Hs. rewrite Hr in Hs. inversion Hs; subst.
    match goal with Hp : pair_of _ _ _ _ |- _ => inversion Hp; subst end.
    reflexivity. }
  rewrite should_rewrite_eq, superstep_gate.
  destruct (converged st (heap w)) eqn:E.
  - assert (Hm : (t >= n /\ l >= n)%Z) by (apply Hc; reflexivity).
    repeat split; try tauto; eauto.
  - assert (Hm : ~ (t >= n /\ l >= n)%Z)
      by (intros Hm; apply Hc in Hm; discriminate).
    repeat split; try tauto; try discriminate; eauto.
Qed.

End Gate.

Lemma C1_convergence_gate_witness :
  should_rewrite (main_input "X" "devs" 2)
    (mkWorld (upd (heap main_world) tweet_obj (mkPost ["a"; "b"] None)) 3 [])
  = Ok (Goto [linkedin_critique; tweet_critique])
       (mkWorld (upd (heap main_world) tweet_obj (mkPost ["a"; "b"] None)) 3 []).
Proof.
  apply (C1_convergence_gate echo_llm (main_input "X" "devs" 2)).
  cbn. lia.
Defined.

(** ** C2 and C8: the loop when every call is answered *)

Section Loop.

Variable llm : nat -> list Message -> option string.
#[local] Abbreviation G := (build_graph llm).

Hypothesis llm_ok : forall i m, llm i m <> None.

(** One turn of the loop, from the gate back to the gate: a critique and a
    new draft for each post. *)
Lemma loop_iteration st w :
  tweet st <> linkedin_post st -> edit_text st <> None ->
  drafts (heap w (tweet st)) <> [] ->
  drafts (heap w (linkedin_post st)) <> [] ->
  converged st (heap w) = false ->
  exists w1 w2 w3 c1 c2,
    superstep G st (active_of PGate) w = Ok (st, active_of PCritique) w1
    /\ superstep G st (active_of PCritique) w1 = Ok (st, active_of PWrite) w2
    /\ superstep G st (active_of PWrite) w2 = Ok (st, active_of PGate) w3
    /\ drafts (heap w3 (tweet st)) = drafts (heap w (tweet st)) ++ [c1]
    /\ drafts (heap w3 (linkedin_post st))
       = drafts (heap w (linkedin_post st)) ++ [c2]
    /\ exists evs,
         trace w3 = trace w ++ evs
         /\ count (is_enter tweet_writer) evs = 1
         /\ count (is_enter linkedin_writer) evs = 1
         /\ count (is_enter tweet_critique) evs = 1
         /\ count (is_enter linkedin_critique) evs = 1.
Proof.
  intros Hd He Ht Hl Hc.
  rewrite gate_forward, Hc.
  destruct (pair_forward llm _ _ _ _ st
              (mkWorld (heap w) (ncalls w)
                 (trace w ++ [Enter supervisor; Leave supervisor; Commit st]))
              pair_critique)
    as (m1 & c1 & m2 & c2 & _ & _ & E1);
    [ exact Ht | intros c; apply nonempty_effect; exact Hl | exact He
    | intros m; apply llm_ok | intros m; apply llm_ok |].
  cbn [heap ncalls trace] in E1.
  match type of E1 with _ = Ok _ ?w2 =>
    destruct (pair_forward llm _ _ _ _ st w2 pair_write)
      as (m3 & c3 & m4 & c4 & _ & _ & E2);
      [ right; do 2 apply nonempty_effect; exact Ht
      | intros c; right; do 3 apply nonempty_effect; exact Hl | exact He
      | intros m; apply llm_ok | intros m; apply llm_ok |]
  end.
  cbn [heap ncalls trace] in E2.
  do 3 eexists. exists c3, c4.
  split; [reflexivity|]. split; [exact E1|]. split; [exact E2|].
  cbn [heap trace kind effect].
  assert (Hd' : linkedin_post st <> tweet st) by congruence.
  split; [|split].
  - heap_simpl Hd Hd'. reflexivity.
  - heap_simpl Hd Hd'. reflexivity.
  - eexists. rewrite <- !app_assoc. split; [reflexivity|].
    repeat split; reflexivity.
Qed.

Lemma loop_from_gate m :
  forall st w fuel,
    tweet st <> linkedin_post st -> edit_text st <> None ->
    drafts (heap w (tweet st)) <> [] ->
    drafts (heap w (linkedin_post st)) <> [] ->
    rounds_left st (heap w) = m ->
    3 * m + 1 <= fuel ->
    exists w' evs,
      run G fuel st (active_of PGate) w = Ok st w'
      /\ List.length (drafts (heap w' (tweet st)))
         = List.length (drafts (heap w (tweet st))) + m
      /\ List.length (drafts (heap w' (linkedin_post st)))
         = List.length (drafts (heap w (linkedin_post st))) + m
      /\ trace w' = trace w ++ evs
      /\ count (is_enter tweet_writer) evs = m
      /\ count (is_enter linkedin_writer) evs = m
      /\ count (is_enter tweet_critique) evs = m
      /\ count (is_enter linkedin_critique) evs = m.
Proof.
  induction m as [|m IH]; intros st w fuel Hd He Ht Hl Hm Hfuel.
  - destruct fuel as [|fuel]; [lia|].
    assert (Hc : converged st (heap w) = true).
    { apply converged_true_iff. unfold rounds_left in Hm. lia. }
    rewrite run_step, gate_forward, Hc. cbn [fst snd]. rewrite run_done.
    do 2 eexists. split; [reflexivity|]. cbn [heap trace].
    repeat split; try reflexivity; lia.
  - assert (Hc : converged st (heap w) = false).
    { apply converged_false_iff. unfold rounds_left in Hm. lia. }
    destruct (loop_iteration st w Hd He Ht Hl Hc)
      as (w1 & w2 & w3 & c1 & c2 & E1 & E2 & E3 & Dt & Dl & evs & Tr
          & K1 & K2 & K3 & K4).
    do 3 (destruct fuel as [|fuel]; [lia|]).
    rewrite run_step, E1. cbn [fst snd].
    rewrite run_step, E2. cbn [fst snd].
    rewrite run_step, E3. cbn [fst snd].
    destruct (IH st w3 fuel Hd He) as (w' & evs' & Hr & Lt & Ll & Tr' & K).
    + rewrite Dt. destruct (drafts (heap w (tweet st))); discriminate.
    + rewrite Dl. destruct (drafts (heap w (linkedin_post st))); discriminate.
    + unfold rounds_left in *. rewrite Dt, Dl, !len_app. lia.
    + lia.
    + exists w', (evs ++ evs'). split; [exact Hr|].
      rewrite Lt, Ll, Dt, Dl, !length_app, Tr', Tr, !count_app, <- app_assoc.
      cbn [List.length]. destruct K as (K1' & K2' & K3' & K4').
      repeat split; lia.
Qed.

(** The first two supersteps: the editor, then a first draft for each post. *)
Lemma start_forward st w fuel :
  tweet st <> linkedin_post st ->
  can_index (KWriter (tweet st)) (heap w) ->
  can_index (KWriter (linkedin_post st)) (heap w) ->
  exists e c1 c2 w2 evs,
    invoke G (S (S fuel)) st w
    = run G fuel (state_after KEditor e st) (active_of PGate) w2
    /\ drafts (heap w2 (tweet st)) = drafts (heap w (tweet st)) ++ [c1]
    /\ drafts (heap w2 (linkedin_post st))
       = drafts (heap w (linkedin_post st)) ++ [c2]
    /\ trace w2 = trace w ++ evs
    /\ count (is_enter tweet_writer) evs = 1
    /\ count (is_enter linkedin_writer) evs = 1
    /\ count (is_enter tweet_critique) evs = 0
    /\ count (is_enter linkedin_critique) evs = 0.
Proof.
  intros Hd Ht Hl. rewrite invoke_run, run_step.
  destruct (edit_forward llm st w) as (m0 & e & _ & ->);
    [intros m; apply llm_ok|].
  cbn [fst snd]. rewrite run_step.
  match goal with |- context [superstep G ?s _ ?w1] =>
    destruct (pair_forward llm _ _ _ _ s w1 pair_write)
      as (m1 & c1 & m2 & c2 & _ & _ & ->);
      [ exact Ht | intros c; apply can_index_after_writer; exact Hl
      | discriminate | intros m; apply llm_ok | intros m; apply llm_ok |]
  end.
  cbn [fst snd]. exists e, c1, c2. do 2 eexists. split; [reflexivity|].
  cbn [heap trace kind effect state_after tweet linkedin_post].
  assert (Hd' : linkedin_post st <> tweet st) by congruence.
  split; [heap_simpl Hd Hd'; reflexivity|].
  split; [heap_simpl Hd Hd'; reflexivity|].
  rewrite <- !app_assoc. split; [reflexivity|]. repeat split; reflexivity.
Qed.

(** C2.  With a service that answers every call, a run from two new, distinct
    posts with [n_drafts >= 1] and a budget of at least [3 * n_drafts]
    supersteps returns; each post then has exactly [n_drafts] drafts, and
    each writer was entered [n_drafts] times and each critique
    [n_drafts - 1] times. *)
Theorem C2_exact_draft_counts (st : AppState) (w : World) (fuel : nat) :
  (1 <= n_drafts st)%Z ->
  tweet st <> linkedin_post st ->
  heap w (tweet st) = mkPost [] None ->
  heap w (linkedin_post st) = mkPost [] None ->
  3 * Z.to_nat (n_drafts st) <= fuel ->
  exists st' w' evs,
    invoke G fuel st w = Ok st' w'
    /\ len (drafts (heap w' (tweet st'))) = n_drafts st
    /\ len (drafts (heap w' (linkedin_post st'))) = n_drafts st
    /\ trace w' = trace w ++ evs
    /\ count (is_enter tweet_writer) evs = Z.to_nat (n_drafts st)
    /\ count (is_enter linkedin_writer) evs = Z.to_nat (n_drafts st)
    /\ count (is_enter tweet_critique) evs = Z.to_nat (n_drafts st) - 1
    /\ count (is_enter linkedin_critique) evs = Z.to_nat (n_drafts st) - 1.
Proof.
  intros Hn Hd Ht Hl Hfuel.
  do 2 (destruct fuel as [|fuel]; [lia|]).
  destruct (start_forward st w fuel Hd) as
    (e & c1 & c2 & w2 & evs & -> & Dt & Dl & Tr & K1 & K2 & K3 & K4).
  { left. rewrite Ht. reflexivity. }
  { left. rewrite Hl. reflexivity. }
  rewrite Ht in Dt. rewrite Hl in Dl. cbn [drafts app] in Dt, Dl.
  destruct (loop_from_gate (Z.to_nat (n_drafts st) - 1)
              (state_after KEditor e st) w2 fuel)
    as (w' & evs' & Hr & Lt & Ll & Tr' & K1' & K2' & K3' & K4');
    cbn [state_after tweet linkedin_post edit_text n_drafts];
    try assumption; try discriminate.
  - rewrite Dt. discriminate.
  - rewrite Dl. discriminate.
  - unfold rounds_left. cbn [state_after tweet linkedin_post n_drafts].
    rewrite Dt, Dl. unfold len. cbn [List.length]. lia.
  - lia.
  - cbn [state_after tweet linkedin_post] in *.
    exists (state_after KEditor e st), w', (evs ++ evs').
    split; [exact Hr|]. cbn [state_after tweet linkedin_post].
    unfold len. rewrite Lt, Ll, Dt, Dl, Tr', Tr, !count_app, <- app_assoc.
    cbn [List.length]. repeat split; lia.
Qed.

(** C8.  With a service that answers every call the run returns, whatever
    [n_drafts] is, once the budget covers the supersteps to come.  One turn
    of the loop (gate, critiques, writers) puts exactly one draft at the end
    of each list; no draft list ever loses an entry; so the distance to
    [n_drafts] falls by one per turn and the gate ends the run with both
    lists at [n_drafts] or more. *)
Theorem C8_loop_terminates :
  (forall st w fuel,
      tweet st <> linkedin_post st ->
      can_index (KWriter (tweet st)) (heap w) ->
      can_index (KWriter (linkedin_post st)) (heap w) ->
      let t := List.length (drafts (heap w (tweet st))) in
      let l := List.length (drafts (heap w (linkedin_post st))) in
      let turns :=
        Z.to_nat (n_drafts st - Z.min (Z.of_nat (S t)) (Z.of_nat (S l))) in
      3 * turns + 3 <= fuel ->
      exists st' w',
        invoke G fuel st w = Ok st' w'
        /\ List.length (drafts (heap w' (tweet st))) = S t + turns
        /\ List.length (drafts (heap w' (linkedin_post st))) = S l + turns
        /\ converged st' (heap w') = true)
  /\ (forall st w,
        tweet st <> linkedin_post st -> edit_text st <> None ->
        drafts (heap w (tweet st)) <> [] ->
        drafts (heap w (linkedin_post st)) <> [] ->
        converged st (heap w) = false ->
        exists w1 w2 w3,
          superstep G st [supervisor] w
          = Ok (st, [tweet_critique; linkedin_critique]) w1
          /\ superstep G st [tweet_critique; linkedin_critique] w1
             = Ok (st, [tweet_writer; linkedin_writer]) w2
          /\ superstep G st [tweet_writer; linkedin_writer] w2
             = Ok (st, [supervisor]) w3
          /\ List.length (drafts (heap w3 (tweet st)))
             = S (List.length (drafts (heap w (tweet st))))
          /\ List.length (drafts (heap w3 (linkedin_post st)))
             = S (List.length (drafts (heap w (linkedin_post st))))
          /\ rounds_left st (heap w3) < rounds_left st (heap w))
  /\ (forall fuel st w l,
        List.length (drafts (heap w l))
        <= List.length (drafts (heap (world_of (invoke G fuel st w)) l))).
Proof.
  split; [|split].
  - intros st w fuel Hd Ht Hl t l turns Hfuel.
    do 2 (destruct fuel as [|fuel]; [lia|]).
    destruct (start_forward st w fuel Hd Ht Hl) as
      (e & c1 & c2 & w2 & evs & -> & Dt & Dl & _).
    destruct (loop_from_gate turns (state_after KEditor e st) w2 fuel)
      as (w' & evs' & Hr & Lt & Ll & _);
      cbn [state_after tweet linkedin_post edit_text n_drafts];
      try assumption; try discriminate.
    + rewrite Dt. destruct (drafts (heap w (tweet st))); discriminate.
    + rewrite Dl. destruct (drafts (heap w (linkedin_post st))); discriminate.
    + unfold rounds_left. cbn [state_after tweet linkedin_post n_drafts].
      rewrite Dt, Dl. unfold len. rewrite !length_app. cbn [List.length].
      subst turns t l. f_equal. f_equal. f_equal; lia.
    + lia.
    + cbn [state_after tweet linkedin_post] in *.
      exists (state_after KEditor e st), w'. split; [exact Hr|].
      rewrite Lt, Ll, Dt, Dl, !length_app. cbn [List.length].
      split; [subst t; lia|]. split; [subst l; lia|].
      apply converged_true_iff. cbn [state_after tweet linkedin_post n_drafts].
      unfold len. rewrite Lt, Ll, Dt, Dl, !length_app. cbn [List.length].
      subst turns t l. lia.
  - intros st w Hd He Ht Hl Hc.
    destruct (loop_iteration st w Hd He Ht Hl Hc)
      as (w1 & w2 & w3 & c1 & c2 & E1 & E2 & E3 & Dt & Dl & _).
    exists w1, w2, w3. split; [exact E1|]. split; [exact E2|].
    split; [exact E3|]. rewrite Dt, Dl, !length_app. cbn [List.length].
    split; [lia|]. split; [lia|].
    apply converged_false_iff in Hc. unfold rounds_left.
    rewrite Dt, Dl, !len_app. lia.
  - intros fuel st w l. rewrite invoke_run.
    destruct (extends_run llm (heap w) fuel PEdit st w (extends_refl _) l)
      as [suf E].
    rewrite E, length_app. lia.
Qed.

End Loop.

Lemma C2_exact_draft_counts_witness :
  exists st' w' evs,
    invoke (build_graph echo_llm) 25 (main_input "X" "devs" 3) main_world
    = Ok st' w'
    /\ len (drafts (heap w' (tweet st'))) = 3%Z
    /\ len (drafts (heap w' (linkedin_post st'))) = 3%Z
    /\ trace w' = trace main_world ++ evs
    /\ count (is_enter tweet_writer) evs = 3
    /\ count (is_enter linkedin_writer) evs = 3
    /\ count (is_enter tweet_critique) evs = 2
    /\ count (is_enter linkedin_critique) evs = 2.
Proof.
  apply (C2_exact_draft_counts echo_llm); cbn; try reflexivity;
    try discriminate; try lia.
Defined.

Lemma C8_loop_terminates_witness :
  exists st' w',
    invoke (build_graph echo_llm) 25 (main_input "X" "devs" 5) main_world
    = Ok st' w'
    /\ List.length (drafts (heap w' tweet_obj)) = 5
    /\ List.length (drafts (heap w' linkedin_obj)) = 5
    /\ converged st' (heap w') = true.
Proof.
  apply (proj1 (C8_loop_terminates echo_llm ltac:(discriminate))
           (main_input "X" "devs" 5) main_world 25);
    cbn; try (left; reflexivity); try discriminate; lia.
Defined.

(** ** C3: the editor runs once, first *)

Section EditorOnce.

Variable llm : nat -> list Message -> option string.
#[local] Abbreviation G := (build_graph llm).

Lemma quiet_after_editor pre e fuel ph st w :
  ph <> PEdit -> edit_text st = Some e -> trace_since pre (quiet e) w ->
  let r := run G fuel st (active_of ph) w in
  trace_since pre (quiet e) (world_of r)
  /\ forall st' w', r = Ok st' w' -> edit_text st' = Some e.
Proof.
  intros Hph He Ht.
  apply (run_phase_ind llm
           (fun ph st w =>
              ph <> PEdit /\ edit_text st = Some e
              /\ trace_since pre (quiet e) w)
           (fun r =>
              trace_since pre (quiet e) (world_of r)
              /\ forall st' w', r = Ok st' w' -> edit_text st' = Some e));
    [| | | |auto].
  - intros ph0 st0 w0 ex w' (Hp & He0 & Ht0) Hs. split; [|discriminate].
    cbn [world_of].
    inv_step Hs; try congruence;
      (eapply trace_since_fails; [eassumption|intros; exact I|]);
      repeat (first [ assumption
                    | eapply trace_since_node; [eassumption|exact I|]
                    | apply trace_since_addev;
                      [|first [exact I|discriminate]] ]).
  - intros ph0 st0 w0 st' w' (Hp & He0 & Ht0) Hs.
    inv_step Hs; try congruence.
    split; [|intros ? ? [= <- <-]; assumption].
    cbn [world_of].
    repeat (apply trace_since_addev; [|first [exact I|discriminate|assumption]]).
    assumption.
  - intros ph0 st0 w0 st' ph' w' (Hp & He0 & Ht0) Hs.
    inv_step Hs; try congruence.
    all: split; [discriminate|split; [assumption|]].
    all: repeat (first [ assumption
                       | eapply trace_since_node; [eassumption|exact I|]
                       | apply trace_since_addev;
                         [|first [exact I|discriminate|assumption]] ]).
  - intros ph0 st0 w0 (Hp & He0 & Ht0). split; [assumption|discriminate].
Qed.

(** C3.  In a run of at least one superstep the editor is the first node
    entered.  When its call raises, the run ends there.  Otherwise it leaves
    with the edited text [e] before any other node is entered, it is never
    entered again, and every state committed from then on, the returned one
    included, has [edit_text = e].  No edge of the graph and no outcome of
    the gate leads to the editor. *)
Theorem C3_editor_runs_once (fuel : nat) (st : AppState) (w : World) :
  let r := invoke G (S fuel) st w in
  ((exists msgs,
      trace (world_of r) = trace w ++ [Enter editor; Call msgs None]
      /\ r = Raised GenerationFailure (world_of r))
   \/ (exists msgs e rest,
         trace (world_of r)
         = (trace w ++ [Enter editor; Call msgs (Some e); Leave editor]) ++ rest
         /\ (forall n, In (Enter n) rest -> n <> editor)
         /\ (forall s, In (Commit s) rest -> edit_text s = Some e)
         /\ (forall st' w', r = Ok st' w' -> edit_text st' = Some e)))
  /\ entry_point G = Some editor
  /\ (forall a b, In (a, b) (edges G) -> b <> editor)
  /\ (forall s w0 rt w1,
        should_rewrite s w0 = Ok rt w1 -> ~ In editor (targets_of rt)).
Proof.
  intros r. split; [|split; [reflexivity|split]].
  - subst r. rewrite invoke_run, run_step.
    pose proof (superstep_phase llm PEdit st w) as Hs.
    destruct (superstep G st (active_of PEdit) w) as [[st1 next] w1|e w1];
      inv_step Hs.
    + right.
      match goal with H : node_ok _ _ _ _ _ _ _ |- _ => destruct H end.
      cbn [fst snd]. exists msgs, c.
      match goal with |- context [run G fuel ?s _ ?w1] =>
        destruct (quiet_after_editor
                    (trace w ++ [Enter editor; Call msgs (Some c); Leave editor])
                    c fuel PWrite s w1) as ((rest & Ht & Hq) & Hst);
          [discriminate|reflexivity| |]
      end.
      { eexists [_]. split; [world_eq|]. constructor; [reflexivity|constructor]. }
      exists rest. split; [exact Ht|]. rewrite Forall_forall in Hq.
      split; [|split]; [intros n Hn; exact (Hq _ Hn)
                       |intros s Hn; exact (Hq _ Hn)|exact Hst].
    + left.
      match goal with H : node_fails _ _ _ _ _ _ |- _ => inversion H; subst end;
        cbn [kind can_index reads_edit] in *; try tauto.
      exists msgs. cbn [world_of]. split; [world_eq|reflexivity].
  - intros a b Hin. cbn in Hin.
    repeat (destruct Hin as [[= <- <-]|Hin]; [discriminate|]). destruct Hin.
  - intros s w0 rt w1. rewrite should_rewrite_eq. intros [= <- <-].
    destruct (converged s (heap w0)); cbn; intuition discriminate.
Qed.

End EditorOnce.

(** ** C4: a failing service call aborts the run *)

Section Failure.

Variable llm : nat -> list Message -> option string.
#[local] Abbreviation G := (build_graph llm).

Lemma abort_node n st w e w' t0 :
  node_fails llm n st w e w' -> trace_since t0 call_ok w ->
  abort_policy t0 (Raised e w').
Proof.
  intros [msgs Hn Hl Hc|Hc|Hr He] (evs & Ht & Hf); unfold abort_policy;
    cbn [world_of called trace].
  - exists (evs ++ [Call msgs None]). rewrite Ht, app_assoc.
    split; [reflexivity|]. right. exists evs, msgs. eauto.
  - exists evs. split; [assumption|]. left. split; [assumption|]. discriminate.
  - exists evs. split; [assumption|]. left. split; [assumption|]. discriminate.
Qed.

Lemma abort_policy_run t0 fuel ph st w :
  trace_since t0 call_ok w -> abort_policy t0 (run G fuel st (active_of ph) w).
Proof.
  apply (run_phase_ind llm (fun _ _ w => trace_since t0 call_ok w) (abort_policy t0)).
  - intros ph0 st0 w0 e w' HP Hs.
    inv_step Hs; (eapply abort_node; [eassumption|]);
      repeat (first [ assumption
                    | eapply trace_since_node; [eassumption|exact I|]
                    | apply trace_since_addev; [|exact I] ]).
  - intros ph0 st0 w0 st' w' HP Hs.
    assert (Hw : trace_since t0 call_ok w').
    { inv_step Hs;
        repeat (apply trace_since_addev; [|exact I]); assumption. }
    destruct Hw as (evs & Ht & Hf). exists evs. split; [assumption|].
    left. split; [assumption|]. discriminate.
  - intros ph0 st0 w0 st' ph' w' HP Hs.
    inv_step Hs;
      repeat (first [ eassumption
                    | eapply trace_since_node; [eassumption|exact I|]
                    | apply trace_since_addev; [|exact I] ]).
  - intros ph0 st0 w0 (evs & Ht & Hf). exists evs. split; [assumption|].
    left. split; [assumption|]. discriminate.
Qed.

Lemma first_writer_fails fuel ut ta n :
  (forall m, llm 0 m <> None) -> (forall m, llm 1 m = None) ->
  exists w',
    invoke G (S (S fuel)) (main_input ut ta n) main_world
    = Raised GenerationFailure w'
    /\ drafts (heap w' tweet_obj) = [] /\ drafts (heap w' linkedin_obj) = [].
Proof.
  intros H0 H1. rewrite invoke_run, run_step.
  destruct (edit_forward llm (main_input ut ta n) main_world H0)
    as (msgs & c & Hc & ->).
  cbn [fst snd]. rewrite run_step.
  match goal with |- context [superstep G ?st _ ?w] =>
    destruct (pair_fail1_forward llm _ _ _ _ st w pair_write) as (msgs1 & ->);
      [solve_index | discriminate | exact H1 |]
  end.
  eexists. split; [reflexivity|]. split; reflexivity.
Qed.

Lemma second_critique_fails fuel ut ta n :
  (2 <= n)%Z ->
  (forall i m, i < 4 -> llm i m <> None) -> (forall m, llm 4 m = None) ->
  exists w',
    invoke G (4 + fuel) (main_input ut ta n) main_world
    = Raised GenerationFailure w'
    /\ List.length (drafts (heap w' tweet_obj)) = 1
    /\ List.length (drafts (heap w' linkedin_obj)) = 1.
Proof.
  intros Hn Hok Hfail. rewrite invoke_run. cbn [Nat.add]. rewrite run_step.
  destruct (edit_forward llm (main_input ut ta n) main_world)
    as (msgs & c & Hc & ->); [intros m; apply Hok; cbn; lia|].
  cbn [fst snd]. rewrite run_step.
  match goal with |- context [superstep G ?st _ ?w] =>
    destruct (pair_forward llm _ _ _ _ st w pair_write)
      as (m1 & c1 & m2 & c2 & _ & _ & ->);
      [solve_index | intros; solve_index | discriminate
      | intros m; apply Hok; cbn; lia | intros m; apply Hok; cbn; lia |]
  end.
  cbn [fst snd]. rewrite run_step, gate_forward.
  match goal with |- context [converged ?st ?h] =>
    replace (converged st h) with false
      by (symmetry; apply converged_false_iff; cbn; lia)
  end.
  cbn [fst snd]. rewrite run_step.
  match goal with |- context [superstep G ?st _ ?w] =>
    destruct (pair_fail2_forward llm _ _ _ _ st w pair_critique)
      as (m3 & c3 & m4 & ->);
      [solve_index | intros; solve_index | discriminate
      | intros m; apply Hok; cbn; lia | exact Hfail |]
  end.
  eexists. split; [reflexivity|]. split; reflexivity.
Qed.

Lemma main_generate_raised fuel ut ta n e w' :
  invoke G fuel (main_input ut ta n) main_world = Raised e w' ->
  main_generate llm fuel ut ta n = ErrorShown e.
Proof. unfold main_generate. intros ->. reflexivity. Qed.

(** C4.  A service call that raises ends the run at once with a failure and
    no state: in every run the events are either free of failed calls, and
    then the result is not a generation failure, or they end with the one
    failed call, and then the result is [Raised GenerationFailure]; the
    caller of [main] then gets the error and no state.  When the first
    writer call raises, both draft lists are still empty at the abort; when
    the call of the first LinkedIn critique raises, the caller gets the
    failure. *)
Theorem C4_failure_aborts_run :
  (forall fuel st w, abort_policy (trace w) (invoke G fuel st w))
  /\ (forall fuel ut ta n m,
        In (Call m None)
           (trace (world_of (invoke G fuel (main_input ut ta n) main_world))) ->
        main_generate llm fuel ut ta n = ErrorShown GenerationFailure)
  /\ (forall fuel ut ta n,
        (forall m, llm 0 m <> None) -> (forall m, llm 1 m = None) ->
        main_generate llm (S (S fuel)) ut ta n = ErrorShown GenerationFailure
        /\ exists w',
             invoke G (S (S fuel)) (main_input ut ta n) main_world
             = Raised GenerationFailure w'
             /\ drafts (heap w' tweet_obj) = []
             /\ drafts (heap w' linkedin_obj) = [])
  /\ (forall fuel ut ta n,
        (2 <= n)%Z ->
        (forall i m, i < 4 -> llm i m <> None) -> (forall m, llm 4 m = None) ->
        main_generate llm (4 + fuel) ut ta n = ErrorShown GenerationFailure).
Proof.
  assert (Hgen : forall fuel st w, abort_policy (trace w) (invoke G fuel st w)).
  { intros fuel st w. rewrite invoke_run. apply abort_policy_run.
    exists []. rewrite app_nil_r. split; [reflexivity|constructor]. }
  split; [exact Hgen|]. split; [|split].
  - intros fuel ut ta n m Hin.
    destruct (Hgen fuel (main_input ut ta n) main_world)
      as (evs & Ht & [[Hok _]|(pre & m' & _ & _ & w' & Hr)]).
    + cbn [main_world trace app] in Ht. rewrite Ht in Hin.
      rewrite Forall_forall in Hok. destruct (Hok _ Hin).
    + eapply main_generate_raised; eassumption.
  - intros fuel ut ta n H0 H1.
    destruct (first_writer_fails fuel ut ta n H0 H1) as (w' & Hr & Ht & Hl).
    split; [eapply main_generate_raised; eassumption|eauto].
  - intros fuel ut ta n Hn Hok Hfail.
    destruct (second_critique_fails fuel ut ta n Hn Hok Hfail) as (w' & Hr & _).
    eapply main_generate_raised; eassumption.
Qed.

End Failure.

Lemma C4_failure_aborts_run_witness :
  main_generate (failing_llm 1) 25 "X" "devs" 3 = ErrorShown GenerationFailure
  /\ main_generate (failing_llm 4) 25 "X" "devs" 3
     = ErrorShown GenerationFailure.
Proof.
  split.
  - apply (proj1 (proj2 (proj2 (C4_failure_aborts_run (failing_llm 1))))
             23 "X" "devs" 3%Z).
    + intros m. cbn. discriminate.
    + reflexivity.
  - apply (proj2 (proj2 (proj2 (C4_failure_aborts_run (failing_llm 4))))
             21 "X" "devs" 3%Z).
    + lia.
    + intros i m Hi.
      do 4 (destruct i as [|i]; [cbn; discriminate|]). lia.
    + reflexivity.
Defined.

(** ** C5: the instruction of a writer *)

Section WriterInstruction.

Variable llm : nat -> list Message -> option string.
#[local] Abbreviation G := (build_graph llm).

(** C5, as the code has it.  A writer that can read what it needs sends the
    system prompt of its platform and a user instruction made of the edited
    text, the feedback part and the target audience; when the service
    answers, the answer becomes one new entry at the end of the draft list of
    its post, and nothing else of the post changes.  The feedback part is the
    latest draft with the feedback, framed as a revision, exactly when the
    feedback is set and is not the empty text; otherwise it is empty. *)
Theorem C5_writer_instruction (st : AppState) (w : World) (e : string) :
  edit_text st = Some e ->
  (can_index (KWriter (tweet st)) (heap w) ->
   tweet_writer_node llm st w
   = writer_outcome llm
       [SystemMessage TWITTER_PROMPT;
        HumanMessage
          (writer_instruction e (feedback_part "Tweet" (heap w (tweet st)))
                              (target_audience st))]
       (tweet st) (mkUpdate None None None (Some (tweet st)) None None) w)
  /\ (can_index (KWriter (linkedin_post st)) (heap w) ->
      linkedin_writer_node llm st w
      = writer_outcome llm
          [SystemMessage LINKEDIN_PROMPT;
           HumanMessage
             (writer_instruction e
                (feedback_part "LinkedIn post" (heap w (linkedin_post st)))
                (target_audience st))]
          (linkedin_post st)
          (mkUpdate None None None None (Some (linkedin_post st)) None) w)
  /\ (forall label p,
        feedback_part label p <> ""%string
        <-> exists f, feedback p = Some f /\ f <> ""%string)
  /\ (forall label p f ds d,
        feedback p = Some f -> f <> ""%string -> drafts p = ds ++ [d] ->
        feedback_part label p = revision_block label d f).
Proof.
  intros He. split; [|split; [|split]].
  - apply tweet_writer_node_eq, He.
  - apply linkedin_writer_node_eq, He.
  - intros label p. unfold feedback_part.
    destruct (feedback p) as [[|a f]|]; cbn [PyStr.truthy]; split.
    + congruence.
    + intros (f & [= <-] & Hf). congruence.
    + intros _. eexists. split; [reflexivity|discriminate].
    + intros _. apply revision_block_nonempty.
    + congruence.
    + intros (f & Hf & _). discriminate.
  - intros label p f ds d Hf Hne Hd. unfold feedback_part.
    rewrite Hf, Hd, last_last. destruct f; [congruence|reflexivity].
Qed.

End WriterInstruction.

Lemma C5_writer_instruction_witness :
  tweet_writer_node echo_llm (mkState "X" "devs" (Some "E") 0 1 2)
    (mkWorld (upd (heap main_world) 0 (mkPost ["d"] (Some "f"))) 5 [])
  = writer_outcome echo_llm
      [SystemMessage TWITTER_PROMPT;
       HumanMessage
         (writer_instruction "E" (revision_block "Tweet" "d" "f") "devs")]
      0 (mkUpdate None None None (Some 0) None None)
      (mkWorld (upd (heap main_world) 0 (mkPost ["d"] (Some "f"))) 5 []).
Proof.
  apply (proj1 (C5_writer_instruction echo_llm
                  (mkState "X" "devs" (Some "E") 0 1 2)
                  (mkWorld (upd (heap main_world) 0 (mkPost ["d"] (Some "f")))
                           5 [])
                  "E" eq_refl)).
  right. discriminate.
Defined.

(** C5 as the specification words it fails when the feedback is present but
    empty: the instruction the specification describes (the revision block
    whenever feedback is present) is not the one the writer sends; the
    writer leaves the draft and the feedback out.  Such a state is reached
    in a run when a critique call answers with the empty text. *)
Lemma C5_counterexample :
  let p := mkPost ["d"] (Some ""%string) in
  let w := mkWorld (upd (heap main_world) 0 p) 5 [] in
  let st := mkState "X" "devs" (Some "E"%string) 0 1 2 in
  let u := mkUpdate None None None (Some 0) None None in
  feedback (heap w (tweet st)) = Some ""%string
  /\ tweet_writer_node echo_llm st w
     <> writer_outcome echo_llm
          [SystemMessage TWITTER_PROMPT;
           HumanMessage
             (writer_instruction "E" (spec_feedback_part "Tweet" p) "devs")]
          0 u w
  /\ tweet_writer_node echo_llm st w
     = writer_outcome echo_llm
         [SystemMessage TWITTER_PROMPT;
          HumanMessage (writer_instruction "E" "" "devs")] 0 u w
  /\ PyStr.contains "Use the feedback to improve it"
       (writer_instruction "E" "" "devs") = false
  /\ exists st' w',
       invoke (build_graph blank_critique_llm) 25 (main_input "X" "devs" 2)
         main_world = Ok st' w'
       /\ feedback (heap w' tweet_obj) = Some ""%string
       /\ revision_sent TWITTER_PROMPT (trace w') = false
       /\ revision_sent LINKEDIN_PROMPT (trace w') = true.
Proof.
  cbv zeta. split; [reflexivity|]. split.
  { intros H.
    apply (f_equal (fun r => revision_sent TWITTER_PROMPT (trace (world_of r))))
      in H.
    vm_compute in H. discriminate H. }
  split; [reflexivity|].
  split; [vm_compute; reflexivity|].
  do 2 eexists. split; [vm_compute; reflexivity|].
  split; [reflexivity|]. split; vm_compute; reflexivity.
Qed.

(** ** C6: feedback and critiques *)

Section Critique.

Variable llm : nat -> list Message -> option string.
#[local] Abbreviation G := (build_graph llm).

Section Side.

Variables (sys what : string) (cn : Node) (l : loc).

Lemma count_trace w w' evs :
  trace w' = trace w ++ evs ->
  count (is_leave cn) (trace w')
  = count (is_leave cn) (trace w) + count (is_leave cn) evs.
Proof. intros ->. apply count_app. Qed.

(** Steps in which no critique of the post returns. *)
Lemma side_keep act next st w w' suf evs :
  critique_side sys what cn l act st w ->
  trace w' = trace w ++ evs -> count (is_leave cn) evs = 0 ->
  feedback (heap w' l) = feedback (heap w l) ->
  drafts (heap w' l) = drafts (heap w l) ++ suf ->
  List.length suf + (if writes_next act then 0 else 1)
  = (if writes_next next then 0 else 1) ->
  next <> [editor] ->
  critique_side sys what cn l next st w'.
Proof.
  intros (Hlink & Hlen & _) Htr Hev Hfb Hdr Hsuf Hnext.
  pose proof (count_trace _ _ _ Htr) as HK. rewrite Hev, Nat.add_0_r in HK.
  unfold critique_side, critique_link in *. rewrite HK, Hfb, Hdr.
  split; [|split].
  - destruct (count (is_leave cn) (trace w)) as [|k]; [exact Hlink|].
    destruct Hlink as (e & d & c & He & Hn & Hf & Hin).
    exists e, d, c. split; [exact He|]. split; [|split; [exact Hf|]].
    + rewrite nth_error_app1; [exact Hn|].
      apply nth_error_Some. congruence.
    + rewrite Htr. apply in_or_app. left. exact Hin.
  - rewrite length_app. lia.
  - intros E. congruence.
Qed.

(** The editor's step. *)
Lemma side_edit st st' w w' evs :
  critique_side sys what cn l [editor] st w ->
  trace w' = trace w ++ evs -> count (is_leave cn) evs = 0 ->
  heap w' l = heap w l ->
  critique_side sys what cn l (active_of PWrite) st' w'.
Proof.
  intros (Hlink & Hlen & HK0) Htr Hev Hh.
  specialize (HK0 eq_refl).
  pose proof (count_trace _ _ _ Htr) as HK. rewrite Hev, HK0 in HK.
  unfold critique_side, critique_link in *. rewrite HK, Hh.
  rewrite HK0 in Hlink, Hlen. cbn in *.
  split; [exact Hlink|]. split; [exact Hlen|]. discriminate.
Qed.

(** The step in which a critique of the post returns. *)
Lemma side_critique st w w' e ds d c evs :
  critique_side sys what cn l (active_of PCritique) st w ->
  edit_text st = Some e ->
  drafts (heap w l) = ds ++ [d] ->
  heap w' l = mkPost (ds ++ [d]) (Some c) ->
  trace w' = trace w ++ evs -> count (is_leave cn) evs = 1 ->
  In (Call [SystemMessage sys;
            HumanMessage
              (critique_instruction what e d (target_audience st))]
           (Some c)) evs ->
  critique_side sys what cn l (active_of PWrite) st w'.
Proof.
  intros (Hlink & Hlen & _) He Hd Hh Htr Hev Hin.
  pose proof (count_trace _ _ _ Htr) as HK. rewrite Hev, Nat.add_1_r in HK.
  unfold critique_side, critique_link in *. rewrite HK, Hh.
  cbn [drafts feedback writes_next active_of] in *.
  rewrite Hd in Hlen. rewrite length_app in *. cbn [List.length] in *.
  split; [|split; [lia|discriminate]].
  exists e, d, c. split; [exact He|]. split; [|split; [reflexivity|]].
  - rewrite nth_error_app2 by lia.
    replace (count (is_leave cn) (trace w) - List.length ds) with 0 by lia.
    reflexivity.
  - rewrite Htr. apply in_or_app. right. exact Hin.
Qed.

End Side.

Lemma link_feedback sys what cn l st w :
  critique_link sys what cn l st w ->
  (feedback (heap w l) = None <-> count (is_leave cn) (trace w) = 0).
Proof.
  unfold critique_link. destruct (count (is_leave cn) (trace w)).
  - tauto.
  - intros (e & d & c & _ & _ & Hf & _). rewrite Hf. split; discriminate.
Qed.

Section FromNewPosts.

Variables (st0 : AppState) (w0 : World).
Hypothesis distinct_posts : tweet st0 <> linkedin_post st0.
Hypothesis new_tweet : heap w0 (tweet st0) = mkPost [] None.
Hypothesis new_linkedin : heap w0 (linkedin_post st0) = mkPost [] None.
Hypothesis new_trace : trace w0 = [].

Lemma reachable_inv act st w :
  reachable llm st0 w0 act st w -> boundary_inv st0 act st w.
Proof.
  induction 1 as [|act st w st' next w' Hreach IH Hact Hstep].
  - unfold boundary_inv, critique_side, critique_link.
    rewrite new_trace, new_tweet, new_linkedin. cbn.
    split; [right; exists PEdit; reflexivity|].
    repeat split; congruence.
  - destruct IH as ([->|[ph ->]] & Et & El & Hedit & St & Sl); [congruence|].
    assert (Hd : tweet st <> linkedin_post st) by congruence.
    assert (Hd' : linkedin_post st <> tweet st) by congruence.
    destruct ph.
    + pose proof (superstep_phase llm PEdit st w) as Hs. rewrite Hstep in Hs.
      inv_step Hs.
      match goal with H : node_ok _ _ _ _ _ _ _ |- _ => destruct H end.
      split; [right; exists PWrite; reflexivity|].
      split; [exact Et|]. split; [exact El|]. split; [discriminate|].
      split; eapply side_edit; try eassumption;
        try (unfold addev; cbn [trace]; rewrite <- !app_assoc; reflexivity);
        reflexivity.
    + pose proof (superstep_phase llm PWrite st w) as Hs. rewrite Hstep in Hs.
      inv_step Hs.
      repeat match goal with
             | H : node_ok _ _ _ _ _ _ _ |- _ => destruct H
             end.
      split; [right; exists PGate; reflexivity|].
      split; [exact Et|]. split; [exact El|].
      split; [intros _; apply Hedit; discriminate|].
      split.
      * eapply (side_keep _ _ _ _ _ [supervisor] _ _ _ [c1]);
          try eassumption;
          try (unfold addev; cbn [trace]; rewrite <- !app_assoc; reflexivity);
          try reflexivity; try discriminate;
          unfold addev; cbn [heap kind effect]; rewrite <- Et;
          heap_simpl Hd Hd'; reflexivity.
      * eapply (side_keep _ _ _ _ _ [supervisor] _ _ _ [c2]);
          try eassumption;
          try (unfold addev; cbn [trace]; rewrite <- !app_assoc; reflexivity);
          try reflexivity; try discriminate;
          unfold addev; cbn [heap kind effect]; rewrite <- El;
          heap_simpl Hd Hd'; reflexivity.
    + pose proof (superstep_phase llm PGate st w) as Hs. rewrite Hstep in Hs.
      inv_step Hs;
        (split; [first [left; reflexivity|right; exists PCritique; reflexivity]|]);
        (split; [exact Et|]); (split; [exact El|]);
        (split; [intros _; apply Hedit; discriminate|]);
        split;
        eapply (side_keep _ _ _ _ _ _ _ _ _ []);
        try eassumption;
        try (unfold addev; cbn [trace]; rewrite <- !app_assoc; reflexivity);
        try reflexivity; try discriminate;
        unfold addev; cbn [heap]; rewrite app_nil_r; reflexivity.
    + destruct (edit_text st) as [e|] eqn:He;
        [|exfalso; apply Hedit; [discriminate|reflexivity]].
      pose proof St as (_ & Lt & _). pose proof Sl as (_ & Ll & _).
      cbn [writes_next active_of] in Lt, Ll.
      destruct (nonempty_last _ _ Lt) as (dst & dt & Dt).
      destruct (nonempty_last _ _ Ll) as (dsl & dl & Dl).
      rewrite <- Et in Dt. rewrite <- El in Dl.
      destruct (critique_step llm st w e dst dt dsl dl st' next w' He Hd Dt Dl Hstep)
        as (c1 & c2 & -> & -> & ->).
      split; [right; exists PWrite; reflexivity|].
      split; [exact Et|]. split; [exact El|].
      split; [rewrite He; discriminate|].
      split.
      * eapply (side_critique _ _ _ _ _ _ _ e dst dt c1);
          try eassumption; try (rewrite <- Et; exact Dt);
          try (cbn [trace]; reflexivity); try reflexivity.
        -- cbn [heap]. rewrite <- Et. heap_simpl Hd Hd'. reflexivity.
        -- cbn. auto.
      * eapply (side_critique _ _ _ _ _ _ _ e dsl dl c2);
          try eassumption; try (rewrite <- El; exact Dl);
          try (cbn [trace]; reflexivity); try reflexivity.
        -- cbn [heap]. rewrite <- El. heap_simpl Hd Hd'. reflexivity.
        -- cbn. auto 10.
Qed.

(** C6.  A critique that finds a draft sends the latest draft of its post to
    the service and, when answered, sets the feedback of the post to the
    answer, whatever the feedback was, and leaves the drafts as they are.
    In a run from two new, distinct posts, at every boundary between
    supersteps and at the return: the feedback of a post is unset exactly
    when no critique of it has returned; after [k > 0] critiques it is the
    answer to the critique of the post's [k]-th draft; and when the critiques
    have just run (the writers are next) the post has exactly as many drafts
    as critiques. *)
Theorem C6_feedback_tracks_critiques :
  (forall st w e ds d,
      edit_text st = Some e ->
      drafts (heap w (tweet st)) = ds ++ [d] ->
      critique_tweet_node llm st w
      = critique_outcome llm
          [SystemMessage TWITTER_CRITIQUE_PROMPT;
           HumanMessage
             (critique_instruction "tweet" e d (target_audience st))]
          (tweet st) (mkUpdate None None None (Some (tweet st)) None None) w)
  /\ (forall st w e ds d,
        edit_text st = Some e ->
        drafts (heap w (linkedin_post st)) = ds ++ [d] ->
        critique_linkedin_node llm st w
        = critique_outcome llm
            [SystemMessage LINKEDIN_CRITIQUE_PROMPT;
             HumanMessage
               (critique_instruction "LinkedIn post" e d (target_audience st))]
            (linkedin_post st)
            (mkUpdate None None None None (Some (linkedin_post st)) None) w)
  /\ (forall act st w,
        reachable llm st0 w0 act st w ->
        let kt := count (is_leave tweet_critique) (trace w) in
        let kl := count (is_leave linkedin_critique) (trace w) in
        (feedback (heap w (tweet st0)) = None <-> kt = 0)
        /\ (feedback (heap w (linkedin_post st0)) = None <-> kl = 0)
        /\ critique_link TWITTER_CRITIQUE_PROMPT "tweet" tweet_critique
             (tweet st0) st w
        /\ critique_link LINKEDIN_CRITIQUE_PROMPT "LinkedIn post"
             linkedin_critique (linkedin_post st0) st w
        /\ (act = [tweet_writer; linkedin_writer] ->
            List.length (drafts (heap w (tweet st0))) = kt
            /\ List.length (drafts (heap w (linkedin_post st0))) = kl))
  /\ (forall fuel st' w',
        invoke G fuel st0 w0 = Ok st' w' ->
        reachable llm st0 w0 [] st' w'
        /\ (feedback (heap w' (tweet st0)) = None
            <-> count (is_leave tweet_critique) (trace w') = 0)
        /\ (feedback (heap w' (linkedin_post st0)) = None
            <-> count (is_leave linkedin_critique) (trace w') = 0)).
Proof.
  split; [exact (critique_tweet_node_eq llm)|].
  split; [exact (critique_linkedin_node_eq llm)|].
  assert (Hinv : forall act st w,
             reachable llm st0 w0 act st w ->
             (feedback (heap w (tweet st0)) = None
              <-> count (is_leave tweet_critique) (trace w) = 0)
             /\ (feedback (heap w (linkedin_post st0)) = None
                 <-> count (is_leave linkedin_critique) (trace w) = 0)
             /\ critique_link TWITTER_CRITIQUE_PROMPT "tweet" tweet_critique
                  (tweet st0) st w
             /\ critique_link LINKEDIN_CRITIQUE_PROMPT "LinkedIn post"
                  linkedin_critique (linkedin_post st0) st w
             /\ (act = [tweet_writer; linkedin_writer] ->
                 List.length (drafts (heap w (tweet st0)))
                 = count (is_leave tweet_critique) (trace w)
                 /\ List.length (drafts (heap w (linkedin_post st0)))
                    = count (is_leave linkedin_critique) (trace w))).
  { intros act st w Hreach.
    destruct (reachable_inv act st w Hreach)
      as (_ & _ & _ & _ & (Lt & Nt & _) & (Ll & Nl & _)).
    split; [eapply link_feedback; exact Lt|].
    split; [eapply link_feedback; exact Ll|].
    split; [exact Lt|]. split; [exact Ll|].
    intros ->. cbn [writes_next] in Nt, Nl. lia. }
  split; [exact Hinv|].
  intros fuel st' w' Hr.
  assert (Hreach : reachable llm st0 w0 [] st' w').
  { rewrite invoke_run in Hr.
    eapply run_reachable; [apply reach_start|exact Hr]. }
  destruct (Hinv _ _ _ Hreach) as (Ft & Fl & _). auto.
Qed.

End FromNewPosts.

End Critique.

Lemma C6_feedback_tracks_critiques_witness :
  exists st' w',
    invoke (build_graph echo_llm) 25 (main_input "X" "devs" 2) main_world
    = Ok st' w'
    /\ (feedback (heap w' tweet_obj) = None
        <-> count (is_leave tweet_critique) (trace w') = 0).
Proof.
  do 2 eexists.
  assert (E : invoke (build_graph echo_llm) 25 (main_input "X" "devs" 2)
                main_world = Ok _ _) by (vm_compute; reflexivity).
  split; [exact E|].
  apply (proj2 (proj2 (proj2
           (C6_feedback_tracks_critiques echo_llm (main_input "X" "devs" 2)
              main_world ltac:(discriminate) eq_refl eq_refl eq_refl)))
           25 _ _ E).
Defined.

(** ** C7: draft lists only grow at the end *)

Section AppendOnly.

Variable llm : nat -> list Message -> option string.
#[local] Abbreviation G := (build_graph llm).

(** C7.  Whatever a node does, every draft list keeps its entries, in place
    (the new list is the old one followed by a suffix).  A node other than a
    writer leaves every draft list as it is; a writer that returns puts one
    entry at the end of the list of its own post and leaves the other lists
    as they are.  Over a whole run, returned or aborted, the draft lists of
    the beginning are prefixes of those at the end. *)
Theorem C7_drafts_append_only :
  (forall n st w, extends (heap w) (heap (world_of (node_fn G n st w))))
  /\ (forall n st w l,
        n <> tweet_writer -> n <> linkedin_writer ->
        drafts (heap (world_of (node_fn G n st w)) l) = drafts (heap w l))
  /\ (forall n st w u w',
        n = tweet_writer \/ n = linkedin_writer ->
        node_fn G n st w = Ok u w' ->
        let p := if Node_eqb n tweet_writer then tweet st
                 else linkedin_post st in
        (exists c, drafts (heap w' p) = drafts (heap w p) ++ [c])
        /\ forall l, l <> p -> drafts (heap w' l) = drafts (heap w l))
  /\ (forall fuel st w,
        extends (heap w) (heap (world_of (invoke G fuel st w)))).
Proof.
  split; [|split; [|split]].
  - intros n st w. pose proof (node_fn_result llm n st w) as Hr.
    destruct (node_fn G n st w); inversion Hr; subst; cbn [world_of].
    + apply extends_refl.
    + eapply extends_node_ok; eassumption.
    + match goal with H : node_fails _ _ _ _ _ _ |- _ =>
        apply fails_heap in H; rewrite H end. apply extends_refl.
  - intros n st w l Ht Hl. pose proof (node_fn_result llm n st w) as Hr.
    destruct (node_fn G n st w); inversion Hr; subst; cbn [world_of].
    + reflexivity.
    + match goal with H : node_ok _ _ _ _ _ _ _ |- _ => destruct H end.
      destruct n; try congruence; cbn [heap kind effect]; try reflexivity.
      * destruct (Nat.eq_dec l (tweet st)) as [->|Hne];
          [rewrite upd_same|rewrite upd_other by assumption]; reflexivity.
      * destruct (Nat.eq_dec l (linkedin_post st)) as [->|Hne];
          [rewrite upd_same|rewrite upd_other by assumption]; reflexivity.
    + match goal with H : node_fails _ _ _ _ _ _ |- _ =>
        apply fails_heap in H; rewrite H end. reflexivity.
  - intros n st w u w' Hn Hr p. pose proof (node_fn_result llm n st w) as Hres.
    rewrite Hr in Hres. inversion Hres; subst.
    + destruct Hn; discriminate.
    + match goal with H : node_ok _ _ _ _ _ _ _ |- _ => destruct H end.
      destruct Hn; subst n p; cbn [Node_eqb heap kind effect];
        (split; [exists c; rewrite upd_same; reflexivity
                |intros l Hl; rewrite upd_other by assumption; reflexivity]).
  - intros fuel st w. rewrite invoke_run. apply extends_run, extends_refl.
Qed.

End AppendOnly.

Lemma C7_drafts_append_only_witness :
  drafts (heap (world_of (node_fn (build_graph echo_llm) tweet_critique
                            (mkState "X" "devs" (Some "E") 0 1 2)
                            (mkWorld (upd (heap main_world) 0
                                          (mkPost ["a"] None)) 3 []))) 0)
  = ["a"].
Proof.
  apply (proj1 (proj2 (C7_drafts_append_only echo_llm))); discriminate.
Defined.

(** ** C9: every node writes its own slice only *)

Section Frame.

Variable llm : nat -> list Message -> option string.
#[local] Abbreviation G := (build_graph llm).

(** C9.  The update a node returns leaves [user_text], [target_audience],
    [n_drafts] and the two references as they are, and only the editor's
    changes [edit_text].  In the store a node changes at most the post it
    works on: the Twitter nodes the object behind [tweet], the LinkedIn nodes
    the one behind [linkedin_post], the editor and the supervisor none; so,
    the two being distinct objects, a Twitter node leaves the LinkedIn post
    as it is and a LinkedIn node the tweet.  The state a run returns has the
    inputs it was started with. *)
Theorem C9_stage_frame :
  (forall n st w u w',
      node_fn G n st w = Ok u w' ->
      same_inputs st (apply_update u st)
      /\ (n <> editor -> edit_text (apply_update u st) = edit_text st))
  /\ (forall n st w l,
        workspace_of n st <> Some l ->
        heap (world_of (node_fn G n st w)) l = heap w l)
  /\ (forall n st w,
        tweet st <> linkedin_post st ->
        let h' := heap (world_of (node_fn G n st w)) in
        (workspace_of n st = Some (tweet st) ->
         h' (linkedin_post st) = heap w (linkedin_post st))
        /\ (workspace_of n st = Some (linkedin_post st) ->
            h' (tweet st) = heap w (tweet st))
        /\ (workspace_of n st = None ->
            h' (tweet st) = heap w (tweet st)
            /\ h' (linkedin_post st) = heap w (linkedin_post st)))
  /\ (forall fuel st w st' w',
        invoke G fuel st w = Ok st' w' -> same_inputs st st').
Proof.
  assert (Hheap : forall n st w l,
             workspace_of n st <> Some l ->
             heap (world_of (node_fn G n st w)) l = heap w l).
  { intros n st w l Hl. pose proof (node_fn_result llm n st w) as Hr.
    destruct (node_fn G n st w); inversion Hr; subst; cbn [world_of].
    - reflexivity.
    - match goal with H : node_ok _ _ _ _ _ _ _ |- _ => destruct H end.
      unfold workspace_of in Hl. cbn [heap].
      destruct (kind n st); cbn [effect]; try reflexivity;
        apply upd_other; congruence.
    - match goal with H : node_fails _ _ _ _ _ _ |- _ =>
        apply fails_heap in H; rewrite H end. reflexivity. }
  split; [|split; [exact Hheap|split]].
  - intros n st w u w' Hr. pose proof (node_fn_result llm n st w) as Hres.
    rewrite Hr in Hres. inversion Hres; subst.
    + match goal with H : apply_update _ _ = _ |- _ => rewrite H end.
      split; [repeat split|reflexivity].
    + match goal with H : apply_update _ _ = _ |- _ => rewrite H end.
      destruct n; cbn [kind state_after]; split;
        first [repeat split; reflexivity | congruence | reflexivity].
  - intros n st w Hd h'. subst h'. repeat split.
    + intros Hw. apply Hheap. congruence.
    + intros Hw. apply Hheap. congruence.
    + apply Hheap. congruence.
    + apply Hheap. congruence.
  - intros fuel st w st' w'. rewrite invoke_run. apply same_inputs_run.
    repeat split.
Qed.

End Frame.

Lemma C9_stage_frame_witness :
  heap (world_of (node_fn (build_graph echo_llm) tweet_writer
                    (mkState "X" "devs" (Some "E") 0 1 2) main_world)) 1
  = heap main_world 1.
Proof.
  apply (proj1 (proj2 (C9_stage_frame echo_llm))). discriminate.
Defined.

(** ** C10: [drafts[-1]] is never read on an empty list *)

Section SafeIndex.

Variable llm : nat -> list Message -> option string.
#[local] Abbreviation G := (build_graph llm).

Lemma no_index_error fuel ph st w :
  index_safe ph st w ->
  forall e w', run G fuel st (active_of ph) w = Raised e w' -> e <> IndexError.
Proof.
  apply (run_phase_ind llm index_safe
           (fun r => forall e w', r = Raised e w' -> e <> IndexError)).
  - intros ph0 s w0 e w' HP Hs ? ? [= <- <-].
    inv_step Hs; cbn [index_safe] in HP; destruct HP as [Ht Hl];
      repeat match goal with
             | H : node_ok _ _ _ _ _ _ _ |- _ => destruct H
             end;
      match goal with
      | H : node_fails _ _ _ _ _ _ |- _ => inversion H; subst
      end; try discriminate;
      intros _;
      match goal with H : ~ can_index _ _ |- _ => apply H end;
      unfold addev; cbn [kind heap can_index];
      first [ exact I | assumption
            | apply can_index_after_writer; assumption
            | apply nonempty_effect; assumption ].
  - discriminate.
  - intros ph0 s w0 s' ph' w' HP Hs.
    inv_step Hs; cbn [index_safe] in *; destruct HP as [Ht Hl];
      repeat match goal with
             | H : node_ok _ _ _ _ _ _ _ |- _ => destruct H
             end;
      unfold addev; cbn [kind heap state_after tweet linkedin_post];
      try (split; assumption).
    + split.
      * apply nonempty_effect, writer_nonempty.
      * apply writer_nonempty.
    + split; right; do 2 apply nonempty_effect; assumption.
  - intros ph0 s w0 HP e w' [= <- <-]. discriminate.
Qed.

(** C10.  A node raises [IndexError] only when the reads of [drafts[-1]] it
    makes are out of range: a writer only when the feedback is set and not
    empty while the draft list is empty, a critique only when the draft list
    is empty (and then they do raise).  In a run that starts with both posts
    readable by the writers (feedback unset or drafts present, as in [main],
    where both posts are new) no superstep raises [IndexError]: the writers
    find the feedback unset in the first round, and every later read comes
    after a writer appended a draft. *)
Theorem C10_last_draft_reads_safe :
  (forall n st w w',
      node_fn G n st w = Raised IndexError w' ->
      ~ can_index (kind n st) (heap w))
  /\ (forall st w e f,
        edit_text st = Some e ->
        drafts (heap w (tweet st)) = [] ->
        critique_tweet_node llm st w = Raised IndexError w
        /\ (feedback (heap w (tweet st)) = Some f -> f <> ""%string ->
            tweet_writer_node llm st w = Raised IndexError w))
  /\ (forall fuel st w w',
        can_index (KWriter (tweet st)) (heap w) ->
        can_index (KWriter (linkedin_post st)) (heap w) ->
        invoke G fuel st w <> Raised IndexError w')
  /\ (forall fuel ut ta n,
        main_generate llm fuel ut ta n <> ErrorShown IndexError).
Proof.
  assert (Hrun : forall fuel st w w',
             can_index (KWriter (tweet st)) (heap w) ->
             can_index (KWriter (linkedin_post st)) (heap w) ->
             invoke G fuel st w <> Raised IndexError w').
  { intros fuel st w w' Ht Hl Hr. rewrite invoke_run in Hr.
    apply (no_index_error fuel PEdit st w (conj Ht Hl) _ _ Hr). reflexivity. }
  split; [|split; [|split; [exact Hrun|]]].
  - intros n st w w' Hr. pose proof (node_fn_result llm n st w) as Hres.
    rewrite Hr in Hres. inversion Hres; subst.
    match goal with H : node_fails _ _ _ _ _ _ |- _ => inversion H; subst end.
    assumption.
  - intros st w e f He Hd. split.
    + cbv [critique_tweet_node bind get_edit_text drafts_last deref last_item
           ret raise].
      rewrite He, Hd. reflexivity.
    + intros Hf Hne.
      cbv [tweet_writer_node bind get_feedback drafts_last deref last_item
           ret raise].
      rewrite Hf. destruct f as [|a f]; [congruence|].
      cbn [falsy PyStr.truthy negb]. rewrite Hd. reflexivity.
  - intros fuel ut ta n. unfold main_generate.
    destruct (invoke G fuel (main_input ut ta n) main_world) as [s w|e w] eqn:E;
      [discriminate|].
    intros [= ->]. revert E. apply Hrun; left; reflexivity.
Qed.

End SafeIndex.

Lemma C10_last_draft_reads_safe_witness :
  invoke (build_graph (failing_llm 7)) 25 (main_input "X" "devs" 3) main_world
  <> Raised IndexError main_world.
Proof.
  apply (proj1 (proj2 (proj2 (C10_last_draft_reads_safe (failing_llm 7)))));
    left; reflexivity.
Defined.

(** ** Runs with any service *)

Section AnyService.

Variable llm : nat -> list Message -> option string.
#[local] Abbreviation G := (build_graph llm).

(** The editor's superstep: it returns, or its call raised. *)
Lemma edit_any st w :
  (exists msgs c,
      superstep G st (active_of PEdit) w
      = Ok (state_after KEditor c st, active_of PWrite)
           (mkWorld (heap w) (S (ncalls w))
              (trace w ++ [Enter editor; Call msgs (Some c); Leave editor;
                           Commit (state_after KEditor c st)])))
  \/ (exists msgs,
        superstep G st (active_of PEdit) w
        = Raised GenerationFailure
            (mkWorld (heap w) (S (ncalls w))
               (trace w ++ [Enter editor; Call msgs None]))).
Proof.
  pose proof (superstep_phase llm PEdit st w) as Hs.
  destruct (superstep G st (active_of PEdit) w) as [[st' next] w'|e w'];
    inv_step Hs.
  - left. match goal with H : node_ok _ _ _ _ _ _ _ |- _ => destruct H end.
    exists msgs, c. f_equal. world_eq.
  - right.
    match goal with H : node_fails _ _ _ _ _ _ |- _ => inversion H; subst end;
      cbn [kind can_index reads_edit] in *; try tauto.
    eexists. f_equal. world_eq.
Qed.

(** A superstep of two nodes that can read what they need: it returns, or
    one of the two calls raised. *)
Lemma pair_any ph n1 n2 ph' st w :
  pair_of ph n1 n2 ph' ->
  can_index (kind n1 st) (heap w) ->
  (forall c, can_index (kind n2 st) (effect (kind n1 st) c (heap w))) ->
  edit_text st <> None ->
  (exists msgs1 c1 msgs2 c2,
      superstep G st (active_of ph) w
      = Ok (st, active_of ph')
           (mkWorld (effect (kind n2 st) c2 (effect (kind n1 st) c1 (heap w)))
              (S (S (ncalls w)))
              (trace w ++ [Enter n1; Call msgs1 (Some c1); Leave n1;
                           Enter n2; Call msgs2 (Some c2); Leave n2;
                           Commit st])))
  \/ (exists w',
        superstep G st (active_of ph) w = Raised GenerationFailure w'
        /\ ncalls w' <= S (S (ncalls w))).
Proof.
  intros Hp Hc1 Hc2 He.
  pose proof (superstep_phase llm ph st w) as Hs.
  destruct (superstep G st (active_of ph) w) as [[st' next] w'|e w'];
    destruct Hp; inv_step Hs.
  all: repeat match goal with
              | H : node_ok _ _ _ _ _ _ _ |- _ => destruct H
              end.
  all: try (left; exists msgs1, c1, msgs2, c2; f_equal; world_eq).
  all: right;
    match goal with
    | H : node_fails _ _ _ _ _ _ |- _ =>
        inversion H; subst; unfold addev, called in *;
        cbn [heap ncalls trace kind can_index reads_edit] in *
    end;
    try tauto; try congruence;
    try match goal with
        | Hc : forall c : string, _, Hn : ~ _ |- _ => exfalso; exact (Hn (Hc _))
        end.
  all: eexists; split; [reflexivity|cbn [ncalls]; lia].
Qed.

(** From the gate on: the run returns after [rounds_left] more turns of the
    loop, or a call raised on the way. *)
Lemma loop_any m :
  forall st w fuel,
    tweet st <> linkedin_post st -> edit_text st <> None ->
    drafts (heap w (tweet st)) <> [] ->
    drafts (heap w (linkedin_post st)) <> [] ->
    rounds_left st (heap w) = m ->
    3 * m + 1 <= fuel ->
    (exists w',
        run G fuel st (active_of PGate) w = Ok st w'
        /\ List.length (drafts (heap w' (tweet st)))
           = List.length (drafts (heap w (tweet st))) + m
        /\ List.length (drafts (heap w' (linkedin_post st)))
           = List.length (drafts (heap w (linkedin_post st))) + m
        /\ ncalls w' = ncalls w + 4 * m)
    \/ (exists w',
          run G fuel st (active_of PGate) w = Raised GenerationFailure w'
          /\ ncalls w' <= ncalls w + 4 * m).
Proof.
  induction m as [|m IH]; intros st w fuel Hd He Ht Hl Hm Hfuel.
  - destruct fuel as [|fuel]; [lia|].
    assert (Hc : converged st (heap w) = true).
    { apply converged_true_iff. unfold rounds_left in Hm. lia. }
    rewrite run_step, gate_forward, Hc. cbn [fst snd]. rewrite run_done.
    left. eexists. split; [reflexivity|]. cbn [heap ncalls].
    repeat split; lia.
  - assert (Hc : converged st (heap w) = false).
    { apply converged_false_iff. unfold rounds_left in Hm. lia. }
    assert (Hd' : linkedin_post st <> tweet st) by congruence.
    do 3 (destruct fuel as [|fuel]; [lia|]).
    rewrite run_step, gate_forward, Hc. cbn [fst snd]. rewrite run_step.
    match goal with |- context [superstep G st _ ?w1] =>
      destruct (pair_any _ _ _ _ st w1 pair_critique)
        as [(m1 & c1 & m2 & c2 & ->)|(w' & -> & Hn)];
        [ exact Ht | intros c; apply nonempty_effect; exact Hl | exact He | |]
    end.
    2:{ right. exists w'. split; [reflexivity|]. cbn [ncalls] in Hn. lia. }
    cbn [fst snd heap ncalls trace]. rewrite run_step.
    match goal with |- context [superstep G st _ ?w2] =>
      destruct (pair_any _ _ _ _ st w2 pair_write)
        as [(m3 & c3 & m4 & c4 & ->)|(w' & -> & Hn)];
        [ right; do 2 apply nonempty_effect; exact Ht
        | intros c; right; do 3 apply nonempty_effect; exact Hl | exact He | |]
    end.
    2:{ right. exists w'. split; [reflexivity|]. cbn [ncalls] in Hn. lia. }
    cbn [fst snd heap ncalls trace].
    match goal with |- context [run G fuel st _ ?w3] =>
      assert (Dt : drafts (heap w3 (tweet st))
                   = drafts (heap w (tweet st)) ++ [c3])
        by (cbn [heap kind effect]; heap_simpl Hd Hd'; reflexivity);
      assert (Dl : drafts (heap w3 (linkedin_post st))
                   = drafts (heap w (linkedin_post st)) ++ [c4])
        by (cbn [heap kind effect]; heap_simpl Hd Hd'; reflexivity);
      destruct (IH st w3 fuel Hd He)
        as [(w' & Hr & Lt & Ll & Hn)|(w' & Hr & Hn)]
    end.
    + rewrite Dt. destruct (drafts (heap w (tweet st))); discriminate.
    + rewrite Dl. destruct (drafts (heap w (linkedin_post st))); discriminate.
    + unfold rounds_left in *. rewrite Dt, Dl, !len_app. lia.
    + lia.
    + left. exists w'. split; [exact Hr|].
      rewrite Lt, Ll, Dt, Dl, !length_app. cbn [List.length ncalls] in *.
      repeat split; lia.
    + right. exists w'. split; [exact Hr|]. cbn [ncalls] in Hn. lia.
Qed.

(** A whole run, whatever the service does. *)
Lemma run_any st w fuel :
  tweet st <> linkedin_post st ->
  can_index (KWriter (tweet st)) (heap w) ->
  can_index (KWriter (linkedin_post st)) (heap w) ->
  let t := List.length (drafts (heap w (tweet st))) in
  let l := List.length (drafts (heap w (linkedin_post st))) in
  let turns :=
    Z.to_nat (n_drafts st - Z.min (Z.of_nat (S t)) (Z.of_nat (S l))) in
  3 * turns + 3 <= fuel ->
  (exists st' w',
      invoke G fuel st w = Ok st' w'
      /\ same_inputs st st' /\ edit_text st' <> None
      /\ List.length (drafts (heap w' (tweet st))) = S t + turns
      /\ List.length (drafts (heap w' (linkedin_post st))) = S l + turns
      /\ ncalls w' = ncalls w + 3 + 4 * turns)
  \/ (exists w',
        invoke G fuel st w = Raised GenerationFailure w'
        /\ ncalls w' <= ncalls w + 3 + 4 * turns).
Proof.
  intros Hd Ht Hl t l turns Hfuel.
  assert (Hd' : linkedin_post st <> tweet st) by congruence.
  do 2 (destruct fuel as [|fuel]; [lia|]).
  rewrite invoke_run, run_step.
  destruct (edit_any st w) as [(m0 & e & ->)|(m0 & ->)].
  2:{ right. eexists. split; [reflexivity|]. cbn [ncalls]. lia. }
  cbn [fst snd]. rewrite run_step.
  match goal with |- context [superstep G ?s _ ?w1] =>
    destruct (pair_any _ _ _ _ s w1 pair_write)
      as [(m1 & c1 & m2 & c2 & ->)|(w' & -> & Hn)];
      [ exact Ht | intros c; apply can_index_after_writer; exact Hl
      | discriminate | |]
  end.
  2:{ right. exists w'. split; [reflexivity|]. cbn [ncalls] in Hn. lia. }
  cbn [fst snd heap ncalls trace kind effect state_after tweet linkedin_post].
  match goal with |- context [run G fuel ?s _ ?w2] =>
    assert (Dt : drafts (heap w2 (tweet st))
                 = drafts (heap w (tweet st)) ++ [c1])
      by (cbn [heap]; heap_simpl Hd Hd'; reflexivity);
    assert (Dl : drafts (heap w2 (linkedin_post st))
                 = drafts (heap w (linkedin_post st)) ++ [c2])
      by (cbn [heap]; heap_simpl Hd Hd'; reflexivity);
    destruct (loop_any turns s w2 fuel)
      as [(w' & Hr & Lt & Ll & Hn)|(w' & Hr & Hn)];
    cbn [tweet linkedin_post edit_text n_drafts];
    try assumption; try discriminate
  end.
  - rewrite Dt. destruct (drafts (heap w (tweet st))); discriminate.
  - rewrite Dl. destruct (drafts (heap w (linkedin_post st))); discriminate.
  - unfold rounds_left. cbn [tweet linkedin_post n_drafts].
    rewrite Dt, Dl. unfold len. rewrite !length_app. cbn [List.length].
    subst turns t l. f_equal. f_equal. f_equal; lia.
  - lia.
  - left. cbn [tweet linkedin_post] in *. do 2 eexists. split; [exact Hr|].
    split; [repeat split|]. split; [discriminate|].
    rewrite Lt, Ll, Dt, Dl, !length_app. cbn [List.length ncalls] in *.
    subst t l. repeat split; lia.
  - right. exists w'. split; [exact Hr|]. cbn [ncalls] in Hn. lia.
Qed.

Lemma main_run_any limit ut ta n :
  3 * drafts_due n <= limit ->
  (exists st' w',
      invoke G limit (main_input ut ta n) main_world = Ok st' w'
      /\ same_inputs (main_input ut ta n) st' /\ edit_text st' <> None
      /\ List.length (drafts (heap w' tweet_obj)) = drafts_due n
      /\ List.length (drafts (heap w' linkedin_obj)) = drafts_due n
      /\ ncalls w' = 4 * drafts_due n - 1)
  \/ (exists w',
        invoke G limit (main_input ut ta n) main_world
        = Raised GenerationFailure w'
        /\ ncalls w' <= 4 * drafts_due n - 1).
Proof.
  intros Hl. unfold drafts_due in *.
  destruct (run_any (main_input ut ta n) main_world limit)
    as [(st' & w' & Hr & Hs & He & Lt & Ll & Hn)|(w' & Hr & Hn)];
    try discriminate; try (left; reflexivity).
  - cbn. lia.
  - left. exists st', w'. split; [exact Hr|]. split; [exact Hs|].
    split; [exact He|]. cbn in Lt, Ll, Hn. cbn [main_input tweet linkedin_post].
    repeat split; lia.
  - right. exists w'. split; [exact Hr|]. cbn in Hn. lia.
Qed.

(** X4.  Whatever the service does, a generation started by [main] with a budget
    of [3 * max(1, n_drafts)] supersteps or more ends in one of two ways:
    the state is kept, with the caller's inputs, the edited text and exactly
    [max(1, n_drafts)] drafts for each platform; or the error of a failed
    service call is shown.  No other exception can come out of the graph. *)
Theorem main_generate_outcome (limit : nat) (ut ta : string) (n : Z) :
  3 * drafts_due n <= limit ->
  (exists st h,
      main_generate llm limit ut ta n = Generated st h
      /\ same_inputs (main_input ut ta n) st
      /\ edit_text st <> None
      /\ List.length (drafts (h (tweet st))) = drafts_due n
      /\ List.length (drafts (h (linkedin_post st))) = drafts_due n)
  \/ main_generate llm limit ut ta n = ErrorShown GenerationFailure.
Proof.
  intros Hl. unfold main_generate.
  destruct (main_run_any limit ut ta n Hl)
    as [(st' & w' & -> & Hs & He & Lt & Ll & _)|(w' & -> & _)].
  - left. exists st', (heap w'). split; [reflexivity|].
    pose proof Hs as (_ & _ & _ & Et & El). rewrite Et, El.
    cbn [main_input tweet linkedin_post].
    split; [exact Hs|]. split; [exact He|]. split; assumption.
  - right. reflexivity.
Qed.

(** X5.  The cost of a generation started by [main]: a run that returns has made
    exactly [4 * max(1, n_drafts) - 1] calls to the service (one for the
    editor, one per draft, one per critique), and a run that aborts has made
    no more than that. *)
Theorem service_calls_of_a_run (limit : nat) (ut ta : string) (n : Z) :
  3 * drafts_due n <= limit ->
  match invoke G limit (main_input ut ta n) main_world with
  | Ok _ w' => ncalls w' = 4 * drafts_due n - 1
  | Raised e w' => e = GenerationFailure /\ ncalls w' <= 4 * drafts_due n - 1
  end.
Proof.
  intros Hl.
  destruct (main_run_any limit ut ta n Hl)
    as [(st' & w' & -> & _ & _ & _ & _ & Hn)|(w' & -> & Hn)].
  - exact Hn.
  - split; [reflexivity|exact Hn].
Qed.

End AnyService.

Lemma main_generate_outcome_witness :
  (exists st h,
      main_generate (failing_llm 9) 15 "X" "devs" 5 = Generated st h
      /\ same_inputs (main_input "X" "devs" 5) st
      /\ edit_text st <> None
      /\ List.length (drafts (h (tweet st))) = 5
      /\ List.length (drafts (h (linkedin_post st))) = 5)
  \/ main_generate (failing_llm 9) 15 "X" "devs" 5
     = ErrorShown GenerationFailure.
Proof.
  apply (main_generate_outcome (failing_llm 9) 15 "X" "devs" 5). cbn. lia.
Defined.

Lemma service_calls_of_a_run_witness :
  match invoke (build_graph echo_llm) 9 (main_input "X" "devs" 3) main_world
  with
  | Ok _ w' => ncalls w' = 11
  | Raised e w' => e = GenerationFailure /\ ncalls w' <= 11
  end.
Proof.
  apply (service_calls_of_a_run echo_llm 9 "X" "devs" 3). cbn. lia.
Defined.


(** ** More on the nodes *)

Ltac strip_side :=
  repeat (apply rstrip_app_nonempty); vm_compute; discriminate.

Section NodeEdges.

Import PyStr.
Variable llm : nat -> list Message -> option string.
#[local] Abbreviation G := (build_graph llm).

Lemma strip_editor_prompt ut :
  strip ("
text:
```
" ++ ut ++ "
```
") = ("text:
```
" ++ ut ++ "
```")%string.
Proof.
  unfold strip. rewrite lstrip_lit by reflexivity.
  do 2 (rewrite rstrip_app; [|strip_side]). reflexivity.
Qed.

(** X1.  The editor sends its system prompt and the user's text, untouched,
    between the fences; the answer becomes the update of [edit_text]; a call
    that raises is the only way it fails; the store is not touched. *)
Theorem editor_node_instruction (st : AppState) (w : World) :
  let msgs :=
    [SystemMessage EDITOR_PROMPT;
     HumanMessage ("text:
```
" ++ user_text st ++ "
```")%string] in
  editor_node llm st w
  = match llm (ncalls w) msgs with
    | Some c =>
        Ok (mkUpdate None None (Some c) None None None)
           (mkWorld (heap w) (S (ncalls w)) (trace w ++ [Call msgs (Some c)]))
    | None => Raised GenerationFailure (called w msgs None)
    end.
Proof.
  cbv zeta.
  cbv [editor_node bind ret llm_invoke called]. rewrite strip_editor_prompt.
  destruct (llm (ncalls w) _); reflexivity.
Qed.

Lemma rstrip_idem s : rstrip (rstrip s) = rstrip s.
Proof.
  induction s as [|c s IH]; [reflexivity|].
  cbn [rstrip]. destruct (rstrip s) as [|a r] eqn:E.
  - destruct (isspace c) eqn:Ec; [reflexivity|].
    cbn [rstrip]. rewrite Ec. reflexivity.
  - change (rstrip (String c (String a r)))
      with (match rstrip (String a r) with
            | EmptyString => if isspace c then EmptyString
                             else String c EmptyString
            | r0 => String c r0
            end).
    rewrite IH. reflexivity.
Qed.

Lemma rstrip_audience aud :
  rstrip (" " ++ aud ++ "
") = rstrip (" " ++ rstrip aud ++ "
").
Proof.
  rewrite !(rstrip_app_gen " "), !(rstrip_app_gen _ "
").
  change (rstrip "
") with ""%string. cbn iota. rewrite rstrip_idem. reflexivity.
Qed.

Lemma critique_instruction_audience what e d aud :
  critique_instruction what e d (rstrip aud) = critique_instruction what e d aud.
Proof. unfold critique_instruction. rewrite <- rstrip_audience. reflexivity. Qed.

(** X3.  White space at the end of the target audience never reaches the critique
    service: the critique nodes do the same with the audience as given and
    with its trailing white space removed. *)
Theorem critique_ignores_trailing_space (st : AppState) (w : World) :
  critique_tweet_node llm (with_audience (rstrip (target_audience st)) st) w
  = critique_tweet_node llm st w
  /\ critique_linkedin_node llm
       (with_audience (rstrip (target_audience st)) st) w
     = critique_linkedin_node llm st w.
Proof.
  split.
  - cbv [critique_tweet_node bind ret raise deref drafts_last last_item
         get_edit_text llm_invoke set_feedback store with_audience].
    cbn [edit_text tweet target_audience].
    destruct (edit_text st); [|reflexivity].
    destruct (rev (drafts (heap w (tweet st)))); [reflexivity|].
    rewrite !strip_tweet_critique, critique_instruction_audience. reflexivity.
  - cbv [critique_linkedin_node bind ret raise deref drafts_last last_item
         get_edit_text llm_invoke set_feedback store with_audience].
    cbn [edit_text linkedin_post target_audience].
    destruct (edit_text st); [|reflexivity].
    destruct (rev (drafts (heap w (linkedin_post st)))); [reflexivity|].
    rewrite !strip_linkedin_critique, critique_instruction_audience.
    reflexivity.
Qed.

Lemma edit_text_kept fuel ph st w :
  (ph <> PEdit -> edit_text st <> None) ->
  (forall e w', run G fuel st (active_of ph) w = Raised e w' -> e <> KeyError)
  /\ (forall st' w',
        run G fuel st (active_of ph) w = Ok st' w' -> edit_text st' <> None).
Proof.
  apply (run_phase_ind llm
           (fun ph st _ => ph <> PEdit -> edit_text st <> None)
           (fun r =>
              (forall e w', r = Raised e w' -> e <> KeyError)
              /\ (forall st' w', r = Ok st' w' -> edit_text st' <> None))).
  - intros ph0 s w0 e w' HP Hs. split; [|discriminate].
    intros ? ? [= <- <-].
    inv_step Hs;
      match goal with
      | H : node_fails _ _ _ _ _ _ |- _ => inversion H; subst
      end; try discriminate;
      cbn [kind reads_edit] in *; try tauto;
      intros _;
      match goal with
      | H : edit_text _ = None |- _ => revert H; apply HP; discriminate
      end.
  - intros ph0 s w0 s' w' HP Hs. split; [discriminate|].
    intros ? ? [= <- <-]. inv_step Hs. apply HP. discriminate.
  - intros ph0 s w0 s' ph' w' HP Hs _.
    inv_step Hs; first [discriminate | apply HP; discriminate].
  - intros ph0 s w0 HP. split; [|discriminate].
    intros e w' [= <- <-]. discriminate.
Qed.

(** X2.  A writer or a critique run on a state without [edit_text] raises
    [KeyError] before any call to the service (a writer only once its read
    of the latest draft is passed; a critique whatever the drafts are).  In
    the graph this never happens: the editor writes [edit_text] before any
    of them runs, so no run raises [KeyError], and a run that returns always
    returns the edited text. *)
Theorem edit_text_key_always_set :
  (forall st w,
      edit_text st = None ->
      critique_tweet_node llm st w = Raised KeyError w
      /\ critique_linkedin_node llm st w = Raised KeyError w
      /\ (can_index (KWriter (tweet st)) (heap w) ->
          tweet_writer_node llm st w = Raised KeyError w)
      /\ (can_index (KWriter (linkedin_post st)) (heap w) ->
          linkedin_writer_node llm st w = Raised KeyError w))
  /\ (forall fuel st w w', invoke G fuel st w <> Raised KeyError w')
  /\ (forall fuel st w st' w',
        invoke G fuel st w = Ok st' w' -> exists e, edit_text st' = Some e).
Proof.
  split; [|split].
  - intros st w He. split; [|split; [|split]].
    + cbv [critique_tweet_node bind get_edit_text raise]. rewrite He.
      reflexivity.
    + cbv [critique_linkedin_node bind get_edit_text raise]. rewrite He.
      reflexivity.
    + intros Hc. cbv [tweet_writer_node bind ret raise get_feedback deref
                      drafts_last last_item get_edit_text].
      rewrite He. cbn [can_index] in Hc.
      destruct (falsy (feedback (heap w (tweet st)))) eqn:Ef; [reflexivity|].
      destruct (rev (drafts (heap w (tweet st)))) eqn:Er; [|reflexivity].
      apply rev_nil_inv in Er. destruct Hc; congruence.
    + intros Hc. cbv [linkedin_writer_node bind ret raise get_feedback deref
                      drafts_last last_item get_edit_text].
      rewrite He. cbn [can_index] in Hc.
      destruct (falsy (feedback (heap w (linkedin_post st)))) eqn:Ef;
        [reflexivity|].
      destruct (rev (drafts (heap w (linkedin_post st)))) eqn:Er;
        [|reflexivity].
      apply rev_nil_inv in Er. destruct Hc; congruence.
  - intros fuel st w w' Hr. rewrite invoke_run in Hr.
    destruct (edit_text_kept fuel PEdit st w) as [Hk _]; [congruence|].
    exact (Hk _ _ Hr eq_refl).
  - intros fuel st w st' w' Hr. rewrite invoke_run in Hr.
    destruct (edit_text_kept fuel PEdit st w) as [_ Hk]; [congruence|].
    specialize (Hk _ _ Hr). destruct (edit_text st'); [eauto|congruence].
Qed.

End NodeEdges.

(** ** The page *)

Section PageFacts.

Variable fill : string -> nat -> string.

Local Open Scope string_scope.

Lemma append_inj_l p a b : p ++ a = p ++ b -> a = b.
Proof.
  induction p as [|c p IH]; cbn [append]; [exact (fun H => H)|].
  intros [= H]. exact (IH H).
Qed.

Lemma str_nat_inj a b : str_nat a = str_nat b -> a = b.
Proof.
  unfold str_nat. intros H.
  apply (f_equal DecimalString.NilEmpty.uint_of_string) in H.
  rewrite !DecimalString.NilEmpty.usu in H. injection H as H.
  exact (DecimalNat.Unsigned.to_uint_inj _ _ H).
Qed.

Lemma display_from_length platform i ds :
  List.length (display_from fill platform i ds) = List.length ds.
Proof.
  revert i. induction ds as [|d ds IH]; intros i; cbn; [reflexivity|].
  rewrite IH. reflexivity.
Qed.

Lemma display_from_nth platform ds :
  forall i k d,
    nth_error ds k = Some d ->
    nth_error (display_from fill platform i ds) k
    = Some (Expander (platform ++ " Draft #" ++ str_nat (i + k + 1))
              [Write (if String.eqb platform "Twitter" then fill d 80
                      else d)]).
Proof.
  induction ds as [|x ds IH]; intros i k d Hk; [destruct k; discriminate|].
  destruct k as [|k]; cbn [nth_error display_from] in *.
  - injection Hk as ->. rewrite Nat.add_0_r. reflexivity.
  - rewrite (IH (S i) k d Hk).
    replace (S i + k + 1) with (i + S k + 1) by lia. reflexivity.
Qed.

Lemma display_from_labels platform ds :
  forall i,
    labels (display_from fill platform i ds)
    = map (fun k => platform ++ " Draft #" ++ str_nat (k + 1))
          (seq i (List.length ds)).
Proof.
  induction ds as [|x ds IH]; intros i; cbn; [reflexivity|].
  rewrite IH. reflexivity.
Qed.

Lemma NoDup_map_injective {A B} (f : A -> B) (l : list A) :
  (forall x y, f x = f y -> x = y) -> NoDup l -> NoDup (map f l).
Proof.
  intros Hf H. induction H as [|x l Hx Hl IH]; cbn; constructor; [|exact IH].
  intros Hin. apply in_map_iff in Hin. destruct Hin as (y & Hy & Hin).
  apply Hf in Hy. subst y. contradiction.
Qed.

Lemma labels_app a b : labels (a ++ b)%list = (labels a ++ labels b)%list.
Proof.
  induction a as [|x a IH]; cbn; [reflexivity|].
  destruct x; cbn; rewrite ?IH; reflexivity.
Qed.

(** X6.  [display_drafts] puts on the page one expander per draft, in the order
    of the list, numbered from 1, with the draft as its text (re-wrapped for
    the platform "Twitter", as it is for any other), and after them one
    expander for the feedback exactly when the feedback is set and is not
    the empty text. *)
Theorem display_drafts_lists_the_drafts (post : Post) (platform : string) :
  List.length (display_drafts fill post platform)
  = List.length (drafts post) + (if falsy (feedback post) then 0 else 1)
  /\ (forall k d,
        nth_error (drafts post) k = Some d ->
        nth_error (display_drafts fill post platform) k
        = Some (Expander (platform ++ " Draft #" ++ str_nat (k + 1))
                  [Write (if String.eqb platform "Twitter" then fill d 80
                          else d)]))
  /\ (forall f,
        In (Expander (platform ++ " Feedback") [Write f])
           (display_drafts fill post platform)
        <-> feedback post = Some f /\ f <> "").
Proof.
  unfold display_drafts. split; [|split].
  - rewrite length_app, display_from_length.
    destruct (falsy (feedback post)); reflexivity.
  - intros k d Hk. rewrite nth_error_app1.
    + apply (display_from_nth platform (drafts post) 0 k d Hk).
    + rewrite display_from_length. apply nth_error_Some. congruence.
  - intros f. rewrite in_app_iff. split.
    + intros [Hin|Hin].
      * exfalso. apply In_nth_error in Hin. destruct Hin as [k Hk].
        assert (Hlt : k < List.length (drafts post)).
        { rewrite <- (display_from_length platform 0).
          apply nth_error_Some. congruence. }
        destruct (nth_error (drafts post) k) as [d|] eqn:Ed;
          [|apply nth_error_None in Ed; lia].
        rewrite (display_from_nth platform _ 0 k d Ed) in Hk.
        injection Hk as Hk _. apply append_inj_l in Hk. discriminate.
      * destruct (feedback post) as [[|a g]|]; cbn in Hin;
          try contradiction.
        destruct Hin as [[= <-]|[]]. split; [reflexivity|discriminate].
    + intros [Hf Hne]. right. rewrite Hf.
      destruct f; [congruence|]. cbn. left. reflexivity.
Qed.

(** X7.  No two expanders of [display_drafts] carry the same label. *)
Theorem display_drafts_labels_differ (post : Post) (platform : string) :
  NoDup (labels (display_drafts fill post platform)).
Proof.
  unfold display_drafts. rewrite labels_app, display_from_labels.
  assert (Hd : NoDup (map (fun k => platform ++ " Draft #" ++ str_nat (k + 1))
                          (seq 0 (List.length (drafts post))))).
  { apply NoDup_map_injective; [|apply seq_NoDup].
    intros a b H. apply append_inj_l, append_inj_l in H.
    apply str_nat_inj in H. lia. }
  destruct (falsy (feedback post)); cbn [labels].
  - rewrite app_nil_r. exact Hd.
  - apply NoDup_app; [exact Hd|repeat constructor; intros []|].
    intros x Hx [<-|[]]. apply in_map_iff in Hx.
    destruct Hx as (k & Hk & _). apply append_inj_l in Hk. discriminate.
Qed.

End PageFacts.

(** ** The body of [main] *)

Section MainFacts.

Variable fill : string -> nat -> string.
Variable describe : Exception -> string.
Variable ChatGroq : string -> nat -> list Message -> option string.

Lemma show_ok s : session_ok s -> exists els, show fill s = inr els.
Proof.
  unfold session_ok, show. intros H.
  destruct (pick (show_results s) false); [|eauto].
  destruct (H eq_refl) as (st & h & e & -> & ->). eauto.
Qed.

Lemma main_step_page limit inp s :
  session_ok s ->
  exists s' els,
    main_step fill describe ChatGroq limit inp s = Page s' els
    /\ session_ok s'.
Proof.
  intros Hs. unfold main_step.
  destruct (triggered inp).
  - destruct (invoke _ limit _ main_world) as [st w|e w] eqn:E; cbn [fst snd].
    + rewrite invoke_run in E.
      destruct (edit_text_kept (ChatGroq (groq_api_key inp)) limit PEdit
                  (main_input (in_user_text inp) (in_target_audience inp)
                              (in_n_drafts inp))
                  main_world ltac:(congruence)) as [_ Hk].
      specialize (Hk _ _ E).
      destruct (edit_text st) as [e|] eqn:He; [|congruence].
      unfold show. cbn [show_results pick generated_state]. rewrite He.
      do 2 eexists. split; [reflexivity|].
      intros _. exists st, (heap w), e. auto.
    + destruct (show_ok s Hs) as [els ->]. eauto.
  - cbn [fst snd]. destruct (show_ok s Hs) as [els ->]. eauto.
Qed.

(** X8.  However often the script is run again, with whatever inputs and whatever
    the service does, the display never fails on the session: when
    [show_results] is set, [generated_state] is there and holds the edited
    text. *)
Theorem display_never_crashes (limit : nat) (inps : list Inputs) :
  exists s els,
    main_steps fill describe ChatGroq limit inps new_session = Page s els
    /\ session_ok s.
Proof.
  assert (H : forall s0, session_ok s0 ->
               exists s els,
                 main_steps fill describe ChatGroq limit inps s0 = Page s els
                 /\ session_ok s).
  { induction inps as [|inp rest IH]; intros s0 Hs0; cbn [main_steps].
    - eauto.
    - destruct (main_step_page limit inp s0 Hs0) as (s' & els & -> & Hs').
      destruct rest as [|inp' rest']; [eauto|]. apply IH, Hs'. }
  apply H. intros [=].
Qed.

(** X9.  One run of the script with a budget of [3 * max(1, n_drafts)] supersteps
    or more.  Without the button, the key or the text, the page is what the
    session already held.  Otherwise either the service failed: the error is
    shown above what the page held before, and the session is as it was (the
    results of an earlier generation stay); or the page is the new result:
    the edited text and one tab per platform, each listing exactly
    [max(1, n_drafts)] drafts. *)
Theorem page_after_a_run (limit : nat) (inp : Inputs) (s : Session) :
  session_ok s ->
  3 * drafts_due (in_n_drafts inp) <= limit ->
  exists old,
    show fill s = inr old
    /\ (triggered inp = false ->
        main_step fill describe ChatGroq limit inp s = Page s old)
    /\ (triggered inp = true ->
        main_step fill describe ChatGroq limit inp s
        = Page s (ErrorBox ("An error occurred: "
                            ++ describe GenerationFailure)%string :: old)
        \/ exists st h e,
             main_step fill describe ChatGroq limit inp s
             = Page (mkSession (Some (st, h)) (Some true))
                 [Subheader "Edited Text";
                  Expander "View edited text" [Write e];
                  Tabs [("Twitter Content"%string,
                         Subheader "Twitter Drafts"
                         :: display_drafts fill (h (tweet st)) "Twitter");
                        ("LinkedIn Content"%string,
                         Subheader "LinkedIn Drafts"
                         :: display_drafts fill (h (linkedin_post st))
                              "LinkedIn")]]
             /\ edit_text st = Some e
             /\ user_text st = in_user_text inp
             /\ target_audience st = in_target_audience inp
             /\ List.length (drafts (h (tweet st)))
                = drafts_due (in_n_drafts inp)
             /\ List.length (drafts (h (linkedin_post st)))
                = drafts_due (in_n_drafts inp)).
Proof.
  intros Hs Hl. destruct (show_ok s Hs) as [old Hold]. exists old.
  split; [exact Hold|]. unfold main_step. split; intros ->.
  - cbn [fst snd]. rewrite Hold. reflexivity.
  - destruct (main_run_any (ChatGroq (groq_api_key inp)) limit
                (in_user_text inp) (in_target_audience inp) (in_n_drafts inp)
                Hl)
      as [(st & w & -> & Hin & He & Lt & Ll & _)|(w & -> & _)];
      cbn [fst snd].
    + right. destruct (edit_text st) as [e|] eqn:Ee; [|congruence].
      exists st, (heap w), e. unfold show.
      cbn [show_results pick generated_state]. rewrite Ee.
      split; [reflexivity|]. split; [reflexivity|].
      destruct Hin as (Hu & Ha & _ & Et & El). rewrite Et, El.
      cbn [main_input user_text target_audience tweet linkedin_post] in *.
      auto.
    + left. rewrite Hold. reflexivity.
Qed.

Lemma single_round llm limit ut ta n :
  (n <= 1)%Z -> 3 <= limit ->
  (exists e d1 d2 w',
      invoke (build_graph llm) limit (main_input ut ta n) main_world
      = Ok (state_after KEditor e (main_input ut ta n)) w'
      /\ heap w' tweet_obj = mkPost [d1] None
      /\ heap w' linkedin_obj = mkPost [d2] None)
  \/ (exists w',
        invoke (build_graph llm) limit (main_input ut ta n) main_world
        = Raised GenerationFailure w').
Proof.
  intros Hn Hl. do 3 (destruct limit as [|limit]; [lia|]).
  rewrite invoke_run, run_step.
  destruct (edit_any llm (main_input ut ta n) main_world)
    as [(m0 & e & ->)|(m0 & ->)]; [|right; eauto].
  cbn [fst snd]. rewrite run_step.
  match goal with |- context [superstep _ ?s _ ?w1] =>
    destruct (pair_any llm _ _ _ _ s w1 pair_write)
      as [(m1 & c1 & m2 & c2 & ->)|(w' & -> & _)];
      [ left; reflexivity | intros c; left; reflexivity | discriminate
      | |right; eauto]
  end.
  cbn [fst snd]. rewrite run_step, gate_forward.
  match goal with |- context [converged ?s ?h] =>
    replace (converged s h) with true
      by (symmetry; apply converged_true_iff; cbn; lia)
  end.
  cbn [fst snd]. rewrite run_done.
  left. exists e, c1, c2. eexists. split; [reflexivity|].
  split; reflexivity.
Qed.

(** X10.  With [n_drafts] at 1, the value the widget starts with, (or below) a
    generation that succeeds shows one draft for each platform and no
    feedback: no critique has run. *)
Theorem page_of_a_single_draft (limit : nat) (inp : Inputs) (s : Session) :
  triggered inp = true ->
  (in_n_drafts inp <= 1)%Z ->
  3 <= limit ->
  session_ok s ->
  (exists old,
      show fill s = inr old
      /\ main_step fill describe ChatGroq limit inp s
         = Page s (ErrorBox ("An error occurred: "
                             ++ describe GenerationFailure)%string :: old))
  \/ exists st h e d1 d2,
       main_step fill describe ChatGroq limit inp s
       = Page (mkSession (Some (st, h)) (Some true))
           [Subheader "Edited Text";
            Expander "View edited text" [Write e];
            Tabs [("Twitter Content"%string,
                   [Subheader "Twitter Drafts";
                    Expander "Twitter Draft #1" [Write (fill d1 80)]]);
                  ("LinkedIn Content"%string,
                   [Subheader "LinkedIn Drafts";
                    Expander "LinkedIn Draft #1" [Write d2]])]]
       /\ feedback (h (tweet st)) = None
       /\ feedback (h (linkedin_post st)) = None.
Proof.
  intros Ht Hn Hl Hs. unfold main_step. rewrite Ht.
  destruct (single_round (ChatGroq (groq_api_key inp)) limit
              (in_user_text inp) (in_target_audience inp) (in_n_drafts inp)
              Hn Hl)
    as [(e & d1 & d2 & w & -> & Et & El)|(w & ->)]; cbn [fst snd].
  - right. eexists _, (heap w), e, d1, d2. unfold show.
    cbn [show_results pick generated_state state_after edit_text tweet
         linkedin_post main_input].
    rewrite Et, El. split; [reflexivity|].
    cbn [tweet linkedin_post]. rewrite Et, El. split; reflexivity.
  - left. destruct (show_ok s Hs) as [old Hold]. exists old. rewrite Hold.
    split; reflexivity.
Qed.

End MainFacts.

Lemma page_after_a_run_witness :
  exists old,
    show (fun s _ => s) new_session = inr old
    /\ main_step (fun s _ => s) (fun _ => "failed"%string)
         (fun _ => echo_llm) 15
         (mkInputs false "key" 5 "devs" "X") new_session
       = Page new_session old.
Proof.
  destruct (page_after_a_run (fun s _ => s) (fun _ => "failed"%string)
              (fun _ => echo_llm) 15 (mkInputs false "key" 5 "devs" "X")
              new_session)
    as (old & Ho & Hn & _).
  - intros [=].
  - cbn. lia.
  - exists old. split; [exact Ho|]. apply Hn. reflexivity.
Defined.

Lemma page_of_a_single_draft_witness :
  (exists old,
      show (fun s _ => s) new_session = inr old
      /\ main_step (fun s _ => s) (fun _ => "failed"%string)
           (fun _ => echo_llm) 25
           (mkInputs true "key" 1 "devs" "X") new_session
         = Page new_session (ErrorBox "An error occurred: failed" :: old))
  \/ exists st h e d1 d2,
       main_step (fun s _ => s) (fun _ => "failed"%string)
         (fun _ => echo_llm) 25
         (mkInputs true "key" 1 "devs" "X") new_session
       = Page (mkSession (Some (st, h)) (Some true))
           [Subheader "Edited Text";
            Expander "View edited text" [Write e];
            Tabs [("Twitter Content"%string,
                   [Subheader "Twitter Drafts";
                    Expander "Twitter Draft #1" [Write d1]]);
                  ("LinkedIn Content"%string,
                   [Subheader "LinkedIn Drafts";
                    Expander "LinkedIn Draft #1" [Write d2]])]]
       /\ feedback (h (tweet st)) = None
       /\ feedback (h (linkedin_post st)) = None.
Proof.
  apply (page_of_a_single_draft (fun s _ => s) (fun _ => "failed"%string)
           (fun _ => echo_llm) 25 (mkInputs true "key" 1 "devs" "X")
           new_session).
  - reflexivity.
  - cbn. lia.
  - lia.
  - intros [=].
Defined.


(** ** The feedback a run ends with *)

Section FinalFeedback.

Variable llm : nat -> list Message -> option string.
#[local] Abbreviation G := (build_graph llm).

Lemma final_side sys what cn l st w :
  critique_side sys what cn l [] st w ->
  let ds := drafts (heap w l) in
  (feedback (heap w l) = None <-> List.length ds = 1)
  /\ (forall c,
        feedback (heap w l) = Some c ->
        2 <= List.length ds
        /\ exists e d,
             edit_text st = Some e
             /\ nth_error ds (List.length ds - 2) = Some d
             /\ In (Call [SystemMessage sys;
                          HumanMessage
                            (critique_instruction what e d
                               (target_audience st))] (Some c))
                   (trace w)).
Proof.
  intros (Hlink & Hlen & _). cbv zeta. unfold critique_link in Hlink.
  cbn [writes_next] in Hlen.
  destruct (count (is_leave cn) (trace w)) as [|k].
  - rewrite Hlink. split; [split; [lia|reflexivity]|discriminate].
  - destruct Hlink as (e & d & c & He & Hn & Hf & Hin). rewrite Hf.
    split; [split; [discriminate|lia]|].
    intros c' [= <-]. split; [lia|]. exists e, d.
    replace (List.length (drafts (heap w l)) - 2) with k by lia. auto.
Qed.

(** X11.  In the state a generation returns, the feedback of a platform is about
    the draft before the last one: it is the answer to the critique of the
    draft that precedes the final draft, and it is unset exactly when the
    platform has a single draft.  The final draft itself is never
    critiqued. *)
Theorem final_feedback_is_about_the_previous_draft
    (fuel : nat) (ut ta : string) (n : Z) (st' : AppState) (w' : World) :
  invoke G fuel (main_input ut ta n) main_world = Ok st' w' ->
  let tw := heap w' tweet_obj in
  let li := heap w' linkedin_obj in
  (feedback tw = None <-> List.length (drafts tw) = 1)
  /\ (feedback li = None <-> List.length (drafts li) = 1)
  /\ (forall c,
        feedback tw = Some c ->
        2 <= List.length (drafts tw)
        /\ exists e d,
             edit_text st' = Some e
             /\ nth_error (drafts tw) (List.length (drafts tw) - 2) = Some d
             /\ In (Call [SystemMessage TWITTER_CRITIQUE_PROMPT;
                          HumanMessage
                            (critique_instruction "tweet" e d
                               (target_audience st'))] (Some c))
                   (trace w'))
  /\ (forall c,
        feedback li = Some c ->
        2 <= List.length (drafts li)
        /\ exists e d,
             edit_text st' = Some e
             /\ nth_error (drafts li) (List.length (drafts li) - 2) = Some d
             /\ In (Call [SystemMessage LINKEDIN_CRITIQUE_PROMPT;
                          HumanMessage
                            (critique_instruction "LinkedIn post" e d
                               (target_audience st'))] (Some c))
                   (trace w')).
Proof.
  intros Hr. cbv zeta. rewrite invoke_run in Hr.
  assert (Hreach : reachable llm (main_input ut ta n) main_world [] st' w').
  { eapply run_reachable; [apply reach_start|exact Hr]. }
  destruct (reachable_inv llm (main_input ut ta n) main_world
              ltac:(discriminate) eq_refl eq_refl eq_refl _ _ _ Hreach)
    as (_ & _ & _ & _ & St & Sl).
  cbn [main_input tweet linkedin_post] in St, Sl.
  destruct (final_side _ _ _ _ _ _ St) as [Ht1 Ht2].
  destruct (final_side _ _ _ _ _ _ Sl) as [Hl1 Hl2].
  auto.
Qed.

End FinalFeedback.

Lemma final_feedback_is_about_the_previous_draft_witness :
  feedback (heap (world_of (invoke (build_graph echo_llm) 25
                              (main_input "X" "devs" 1) main_world))
                 tweet_obj) = None
  <-> List.length
        (drafts (heap (world_of (invoke (build_graph echo_llm) 25
                                   (main_input "X" "devs" 1) main_world))
                      tweet_obj)) = 1.
Proof.
  assert (E : exists st' w',
             invoke (build_graph echo_llm) 25 (main_input "X" "devs" 1)
               main_world = Ok st' w')
    by (do 2 eexists; vm_compute; reflexivity).
  destruct E as (st' & w' & E). rewrite E. cbn [world_of].
  exact (proj1 (final_feedback_is_about_the_previous_draft echo_llm 25 "X"
                  "devs" 1 st' w' E)).
Defined.

(** ** A post that cannot be read *)

Section Unreadable.

Variable llm : nat -> list Message -> option string.
#[local] Abbreviation G := (build_graph llm).

(** X12.  A run started on a tweet whose feedback is set and not empty while it
    has no draft aborts with [IndexError] in the first writer, once the
    editor's call has been answered: one service call is spent, and the
    store is as it was. *)
Theorem unreadable_tweet_aborts (fuel : nat) (st : AppState) (w : World) :
  ~ can_index (KWriter (tweet st)) (heap w) ->
  (forall m, llm (ncalls w) m <> None) ->
  exists w',
    invoke G (S (S fuel)) st w = Raised IndexError w'
    /\ ncalls w' = S (ncalls w)
    /\ heap w' = heap w.
Proof.
  intros Hc Hl. rewrite invoke_run, run_step.
  destruct (edit_forward llm st w Hl) as (m0 & e & _ & ->).
  cbn [fst snd]. rewrite run_step.
  match goal with |- context [superstep G ?s _ ?w1] =>
    pose proof (superstep_phase llm PWrite s w1) as Hs;
    destruct (superstep G s (active_of PWrite) w1) as [[s' next] w'|ex w']
  end; inv_step Hs;
    repeat match goal with
           | H : node_ok _ _ _ (addev _ (Enter tweet_writer)) _ _ _ |- _ =>
               destruct H as [_ _ Hok _]; exfalso; apply Hc; exact Hok
           end.
  match goal with
  | H : node_fails _ _ _ _ _ _ |- _ => inversion H; subst
  end.
  - exfalso. apply Hc. assumption.
  - eexists. split; [reflexivity|]. split; reflexivity.
  - discriminate.
Qed.

End Unreadable.

Lemma unreadable_tweet_aborts_witness :
  exists w',
    invoke (build_graph echo_llm) 25 (main_input "X" "devs" 2)
      (mkWorld (upd (heap main_world) tweet_obj (mkPost [] (Some "f"))) 0 [])
    = Raised IndexError w'
    /\ ncalls w' = 1
    /\ heap w' = upd (heap main_world) tweet_obj (mkPost [] (Some "f")).
Proof.
  apply (unreadable_tweet_aborts echo_llm 23 (main_input "X" "devs" 2)
           (mkWorld (upd (heap main_world) tweet_obj (mkPost [] (Some "f")))
                    0 [])).
  - cbn. intros [H|H]; [discriminate|apply H; reflexivity].
  - intros m. cbn. discriminate.
Defined.

(** ** Sample uses *)

Lemma edit_text_key_always_set_witness :
  critique_tweet_node echo_llm (main_input "X" "devs" 1) main_world
  = Raised KeyError main_world
  /\ tweet_writer_node echo_llm (main_input "X" "devs" 1) main_world
     = Raised KeyError main_world
  /\ exists st' w' e,
       invoke (build_graph echo_llm) 25 (main_input "X" "devs" 2) main_world
       = Ok st' w'
       /\ edit_text st' = Some e.
Proof.
  destruct (edit_text_key_always_set echo_llm) as (Hn & _ & Hr).
  destruct (Hn (main_input "X" "devs" 1) main_world eq_refl)
    as (H1 & _ & H3 & _).
  split; [exact H1|]. split.
  - apply H3. vm_compute. auto.
  - assert (E : exists st' w',
               invoke (build_graph echo_llm) 25 (main_input "X" "devs" 2)
                 main_world = Ok st' w')
      by (do 2 eexists; vm_compute; reflexivity).
    destruct E as (st' & w' & E).
    destruct (Hr _ _ _ _ _ E) as (e & He).
    exists st', w', e. split; [exact E | exact He].
Defined.

Lemma display_drafts_lists_the_drafts_witness :
  nth_error (display_drafts (fun s _ => s) (mkPost ["a"; "b"] (Some "f"))
               "LinkedIn") 1
  = Some (Expander "LinkedIn Draft #2" [Write "b"])
  /\ In (Expander "LinkedIn Feedback" [Write "f"])
        (display_drafts (fun s _ => s) (mkPost ["a"; "b"] (Some "f"))
           "LinkedIn").
Proof.
  destruct (display_drafts_lists_the_drafts (fun s _ => s)
              (mkPost ["a"; "b"] (Some "f")) "LinkedIn") as (_ & Hk & Hf).
  split.
  - exact (Hk 1 "b" eq_refl).
  - apply (proj2 (Hf "f")). split; [reflexivity | discriminate].
Defined.
